(** * bgio-sqlite: the SQLite match store of src/sqlite.ts

    A shallow embedding of [SQLiteStore] (connect, createMatch, fetch,
    setState, setMetadata, wipe, listMatches, close) over an explicit model
    of the two tables it creates, followed by the properties of the store.

    Conventions.
    - A table is the list of its rows in rowid (insertion) order.
    - Every method is a computation in a state-and-exception monad: it
      returns an outcome (a value or a thrown error) together with the
      state it leaves behind, so that what a failing call leaves in the
      database can be stated.
    - [Date.now()] is an input of the methods that read the clock.
    - Timestamps, sequence numbers and rowids are integers ([Z]); the
      64-bit ceiling of SQLite rowids is not modelled.
    - Diagnostic tracing ([this.log]) changes nothing and is left out. *)

From Stdlib Require Import List String Ascii ZArith Bool Lia.
From Stdlib Require Import Permutation Sorted.
From Stdlib Require Import DecimalString DecimalZ.
Import ListNotations.
Local Open Scope Z_scope.

Set Implicit Arguments.

(* ------------------------------------------------------------------ *)
(** ** The host environment: JSON and the boardgame.io payload types   *)
(* ------------------------------------------------------------------ *)

(** [JSON.stringify] and [JSON.parse] are built-ins of the host, taken as
    an interface.  [JSON_parse] answers [None] where the built-in throws a
    SyntaxError. *)
Class JSON (A : Type) := {
  JSON_stringify : A -> string;
  JSON_parse : string -> option A
}.

(** The serialization boundary of the spec (encode on write, decode on
    read): decoding an encoded payload gives the payload back, and no
    payload encodes to the empty text. *)
Class JSONLaws (A : Type) {J : JSON A} : Prop := {
  parse_stringify : forall a : A, JSON_parse (JSON_stringify a) = Some a;
  stringify_truthy : forall a : A, JSON_stringify a <> EmptyString
}.
Arguments JSONLaws A {J}.

(** The types [State], [LogEntry] and [Server.MatchData] are imported from
    boardgame.io and are taken as parameters.  The store reads the sequence
    number [_stateID] of a state, the optional [gameName] of a metadata
    record and the presence of its optional [gameover] field, and nothing
    else. *)
Class Boardgame := {
  State : Type;
  _stateID : State -> Z;
  LogEntry : Type;
  MatchData : Type;
  Gameover : Type;
  gameName : MatchData -> option string;
  gameover : MatchData -> option Gameover;
  State_JSON :: JSON State;
  LogEntry_JSON :: JSON LogEntry;
  MatchData_JSON :: JSON MatchData
}.

(** The round-trip law for the three payload types. *)
Class BoardgameLaws (B : Boardgame) : Prop := {
  State_laws :: JSONLaws State;
  LogEntry_laws :: JSONLaws LogEntry;
  MatchData_laws :: JSONLaws MatchData
}.

(** JavaScript truthiness of a nullable TEXT column: [null] and the empty
    string are falsy. *)
Definition truthy (c : option string) : bool :=
  match c with
  | Some s => negb (s =? "")%string
  | None => false
  end.

(** [x ?? d] *)
Definition nullish {A : Type} (x : option A) (d : A) : A :=
  match x with Some a => a | None => d end.

(* ------------------------------------------------------------------ *)
(** ** The persisted schema                                            *)
(* ------------------------------------------------------------------ *)

(** [interface MatchRow]: one row of table [matches]. *)
Module MatchRow.
Record t : Type := mk {
  id : string;
  gameName : string;
  state : option string;
  initialState : option string;
  metadata : option string;
  createdAt : Z;
  updatedAt : Z
}.
End MatchRow.

(** [interface LogRow]: one row of table [logs]. *)
Module LogRow.
Record t : Type := mk {
  id : Z;
  matchId : string;
  logEntry : string
}.
End LogRow.

(** The database file: the two tables and, for the AUTOINCREMENT key of
    [logs], the largest rowid handed out so far ([sqlite_sequence]). *)
Record Database : Type := mkDatabase {
  matches : list MatchRow.t;
  logs : list LogRow.t;
  sqlite_sequence : Z
}.

(** A database file on which the CREATE TABLE statements of [connect] have
    just run for the first time. *)
Definition empty_database : Database :=
  {| matches := []; logs := []; sqlite_sequence := 0 |}.

(* ------------------------------------------------------------------ *)
(** ** Outcomes and the method monad                                   *)
(* ------------------------------------------------------------------ *)

Inductive SqliteCode : Type :=
| SQLITE_CONSTRAINT_PRIMARYKEY
| SQLITE_CONSTRAINT_FOREIGNKEY.

Inductive Error : Type :=
| NotConnected                 (* 'Database not connected. Call connect() first.' *)
| SqliteError (c : SqliteCode) (* thrown by better-sqlite3 *)
| SyntaxError.                 (* thrown by JSON.parse *)

Inductive Outcome (A : Type) : Type :=
| Returned (a : A)
| Thrown (e : Error).
Arguments Returned {A} a.
Arguments Thrown {A} e.

Definition M (S A : Type) : Type := S -> Outcome A * S.

Definition ret {S A : Type} (a : A) : M S A := fun s => (Returned a, s).

Definition throw {S A : Type} (e : Error) : M S A := fun s => (Thrown e, s).

Definition bind {S A B : Type} (c : M S A) (k : A -> M S B) : M S B :=
  fun s =>
    match c s with
    | (Returned a, s') => k a s'
    | (Thrown e, s') => (Thrown e, s')
    end.

Definition get {S : Type} : M S S := fun s => (Returned s, s).

Definition put {S : Type} (s' : S) : M S unit := fun _ => (Returned tt, s').

Declare Scope method_scope.
Delimit Scope method_scope with method.
Notation "x <- c ;; k" := (bind c (fun x => k))
  (at level 61, c at next level, right associativity) : method_scope.
Notation "c ;;; k" := (bind c (fun _ => k))
  (at level 61, right associativity) : method_scope.
Local Open Scope method_scope.

(** [for (const x of xs) body(x)] *)
Fixpoint for_of {S A : Type} (xs : list A) (body : A -> M S unit) : M S unit :=
  match xs with
  | [] => ret tt
  | x :: xs' => body x ;;; for_of xs' body
  end.

(** [xs.filter(p)] for a callback that may throw. *)
Fixpoint filter_cb {S A : Type} (p : A -> M S bool) (xs : list A) : M S (list A) :=
  match xs with
  | [] => ret []
  | x :: xs' =>
      keep <- p x ;;
      rest <- filter_cb p xs' ;;
      ret (if keep then x :: rest else rest)
  end.

(** [xs.map(f)] for a callback that may throw. *)
Fixpoint map_cb {S A B : Type} (f : A -> M S B) (xs : list A) : M S (list B) :=
  match xs with
  | [] => ret []
  | x :: xs' =>
      y <- f x ;;
      rest <- map_cb f xs' ;;
      ret (y :: rest)
  end.

(** [JSON.parse(text)] inside a method: a SyntaxError where the text does
    not decode. *)
Definition parse {S A : Type} {J : JSON A} (text : string) : M S A :=
  match JSON_parse text with
  | Some a => ret a
  | None => throw SyntaxError
  end.

(** [db.transaction(fn)()] of better-sqlite3: BEGIN, run [fn], COMMIT; if
    [fn] throws, ROLLBACK to the database as it was at BEGIN and rethrow. *)
Definition transaction {A : Type} (fn : M Database A) : M Database A :=
  fun d =>
    match fn d with
    | (Returned a, d') => (Returned a, d')
    | (Thrown e, _) => (Thrown e, d)
    end.

(* ------------------------------------------------------------------ *)
(** ** The SQL statements the store prepares                           *)
(* ------------------------------------------------------------------ *)

(** ORDER BY: rows are inserted one by one in front of the first row they
    may precede; rows that compare equal keep their table order. *)
Section OrderBy.
Variable A : Type.
Variable precedes : A -> A -> bool.

Fixpoint insert_row (x : A) (l : list A) : list A :=
  match l with
  | [] => [x]
  | y :: l' => if precedes x y then x :: y :: l' else y :: insert_row x l'
  end.

Fixpoint order_by (l : list A) : list A :=
  match l with
  | [] => []
  | x :: l' => insert_row x (order_by l')
  end.
End OrderBy.

Definition id_is (i : string) (r : MatchRow.t) : bool :=
  (MatchRow.id r =? i)%string.

Definition matchId_is (i : string) (r : LogRow.t) : bool :=
  (LogRow.matchId r =? i)%string.

(** The row [SELECT ... FROM matches WHERE id = ?] yields under [.get]: the
    first one with that id, if any. *)
Definition find_match (i : string) (d : Database) : option MatchRow.t :=
  find (id_is i) (matches d).

(** [SELECT * FROM matches WHERE id = ?], run with [.get]. *)
Definition select_match (i : string) : M Database (option MatchRow.t) :=
  fun d => (Returned (find_match i d), d).

(** [INSERT INTO matches (...) VALUES (...)]; [id] is the PRIMARY KEY. *)
Definition insert_match (r : MatchRow.t) : M Database unit :=
  fun d =>
    if existsb (id_is (MatchRow.id r)) (matches d)
    then (Thrown (SqliteError SQLITE_CONSTRAINT_PRIMARYKEY), d)
    else (Returned tt,
          {| matches := matches d ++ [r];
             logs := logs d;
             sqlite_sequence := sqlite_sequence d |}).

Definition set_state (text : string) (now : Z) (r : MatchRow.t) : MatchRow.t :=
  {| MatchRow.id := MatchRow.id r;
     MatchRow.gameName := MatchRow.gameName r;
     MatchRow.state := Some text;
     MatchRow.initialState := MatchRow.initialState r;
     MatchRow.metadata := MatchRow.metadata r;
     MatchRow.createdAt := MatchRow.createdAt r;
     MatchRow.updatedAt := now |}.

Definition set_metadata (text : string) (now : Z) (r : MatchRow.t) : MatchRow.t :=
  {| MatchRow.id := MatchRow.id r;
     MatchRow.gameName := MatchRow.gameName r;
     MatchRow.state := MatchRow.state r;
     MatchRow.initialState := MatchRow.initialState r;
     MatchRow.metadata := Some text;
     MatchRow.createdAt := MatchRow.createdAt r;
     MatchRow.updatedAt := now |}.

(** The SET clause of an UPDATE, applied to the rows with id [i] only. *)
Definition update_row (set : MatchRow.t -> MatchRow.t) (i : string)
    (r : MatchRow.t) : MatchRow.t :=
  if id_is i r then set r else r.

(** [UPDATE matches SET ... WHERE id = ?] with the given SET clause. *)
Definition update_matches (set : MatchRow.t -> MatchRow.t) (i : string)
  : M Database unit :=
  fun d =>
    (Returned tt,
     {| matches := map (update_row set i) (matches d);
        logs := logs d;
        sqlite_sequence := sqlite_sequence d |}).

(** [UPDATE matches SET state = ?, updatedAt = ? WHERE id = ?] *)
Definition update_state (text : string) (now : Z) (i : string) : M Database unit :=
  update_matches (set_state text now) i.

(** [UPDATE matches SET metadata = ?, updatedAt = ? WHERE id = ?] *)
Definition update_metadata (text : string) (now : Z) (i : string)
  : M Database unit :=
  update_matches (set_metadata text now) i.

(** [DELETE FROM matches WHERE id = ?]; deleting a parent row deletes the
    [logs] rows that reference it (ON DELETE CASCADE). *)
Definition delete_match (i : string) : M Database unit :=
  fun d =>
    (Returned tt,
     {| matches := filter (fun r => negb (id_is i r)) (matches d);
        logs := if existsb (id_is i) (matches d)
                then filter (fun l => negb (matchId_is i l)) (logs d)
                else logs d;
        sqlite_sequence := sqlite_sequence d |}).

(** The largest rowid of [logs], in the table or ever handed out. *)
Definition max_rowid (d : Database) : Z :=
  fold_right Z.max (sqlite_sequence d) (map LogRow.id (logs d)).

(** The rowid an AUTOINCREMENT table gives its next row. *)
Definition next_rowid (d : Database) : Z := 1 + max_rowid d.

(** [INSERT INTO logs (matchId, logEntry) VALUES (?, ?)], with foreign keys
    enforced: [matchId] must be the id of a row of [matches]. *)
Definition insert_log (i : string) (text : string) : M Database unit :=
  fun d =>
    if existsb (id_is i) (matches d)
    then (Returned tt,
          {| matches := matches d;
             logs := logs d ++
                     [{| LogRow.id := next_rowid d;
                         LogRow.matchId := i;
                         LogRow.logEntry := text |}];
             sqlite_sequence := next_rowid d |})
    else (Thrown (SqliteError SQLITE_CONSTRAINT_FOREIGNKEY), d).

(** [ORDER BY id ASC] on [logs]. *)
Definition id_asc (a b : LogRow.t) : bool := LogRow.id a <=? LogRow.id b.

(** [ORDER BY updatedAt DESC] on [matches]. *)
Definition updatedAt_desc (a b : MatchRow.t) : bool :=
  MatchRow.updatedAt b <=? MatchRow.updatedAt a.

(** The texts [SELECT logEntry FROM logs WHERE matchId = ? ORDER BY id ASC]
    yields. *)
Definition logs_of (i : string) (d : Database) : list string :=
  map LogRow.logEntry (order_by id_asc (filter (matchId_is i) (logs d))).

(** [SELECT logEntry FROM logs WHERE matchId = ? ORDER BY id ASC] *)
Definition select_logs (i : string) : M Database (list string) :=
  fun d => (Returned (logs_of i d), d).

(** The rows [SELECT ... FROM matches WHERE <cond> ORDER BY updatedAt DESC]
    yields. *)
Definition rows_where (cond : MatchRow.t -> bool) (d : Database)
  : list MatchRow.t :=
  order_by updatedAt_desc (filter cond (matches d)).

(** [SELECT id, metadata FROM matches WHERE <cond> ORDER BY updatedAt DESC];
    the rows are kept whole, the caller reads [id] and [metadata] only. *)
Definition select_matches (cond : MatchRow.t -> bool)
  : M Database (list MatchRow.t) :=
  fun d => (Returned (rows_where cond d), d).

(* ------------------------------------------------------------------ *)
(** ** The storage API records (boardgame.io [StorageAPI])             *)
(* ------------------------------------------------------------------ *)

Module CreateMatchOpts.
Record t {B : Boardgame} : Type := mk {
  initialState : State;
  metadata : MatchData
}.
End CreateMatchOpts.

(** The field selector of [fetch]; an omitted field is [false]. *)
Module FetchOpts.
Record t : Type := mk {
  state : bool;
  log : bool;
  metadata : bool;
  initialState : bool
}.
End FetchOpts.

(** The object [fetch] returns.  A property is [None] when it was never
    assigned, [Some None] when it was assigned [undefined], and
    [Some (Some v)] when it holds the decoded value [v]. *)
Module FetchResult.
Record t {B : Boardgame} : Type := mk {
  state : option (option State);
  log : option (list LogEntry);
  metadata : option (option MatchData);
  initialState : option (option State)
}.

(** [{}] *)
Definition empty {B : Boardgame} : t :=
  {| state := None; log := None; metadata := None; initialState := None |}.
End FetchResult.

Module ListMatchesOpts.
Record where_t : Type := mk_where {
  isGameover : option bool;
  updatedBefore : option Z;
  updatedAfter : option Z
}.

Record t : Type := mk {
  gameName : option string;
  where_ : option where_t
}.
End ListMatchesOpts.

(* ------------------------------------------------------------------ *)
(** ** class SQLiteStore                                               *)
(* ------------------------------------------------------------------ *)

(** The mutable part of a store object: its connection, [null] before
    [connect] and after [close].  An open connection is identified with the
    database it is open on. *)
Record SQLiteStore : Type := mkStore {
  db : option Database
}.

(** [new SQLiteStore(options)] *)
Definition new_SQLiteStore : SQLiteStore := {| db := None |}.

(** The guard every data method starts with:
    [if (!this.db) throw new Error('Database not connected...')], followed by
    the method body run on the connection. *)
Definition with_db {A : Type} (body : M Database A) : M SQLiteStore A :=
  fun s =>
    match db s with
    | None => (Thrown NotConnected, s)
    | Some d => let (o, d') := body d in (o, {| db := Some d' |})
    end.

(** [connect()]: opens the file, creating it when it does not exist;
    [file] is what the file holds beforehand.  CREATE TABLE IF NOT EXISTS
    leaves existing tables alone. *)
Definition connect (file : option Database) : M SQLiteStore unit :=
  fun _ => (Returned tt, {| db := Some (nullish file empty_database) |}).

(** [close()] *)
Definition close : M SQLiteStore unit :=
  fun s =>
    match db s with
    | Some _ => (Returned tt, {| db := None |})
    | None => (Returned tt, s)
    end.

Section Methods.
Context {B : Boardgame}.

(** [createMatch(id, opts)] *)
Definition createMatch (id : string) (opts : CreateMatchOpts.t) (now : Z)
  : M SQLiteStore unit :=
  with_db
    (let gameName :=
       nullish (gameName (CreateMatchOpts.metadata opts)) ""%string in
     insert_match
       {| MatchRow.id := id;
          MatchRow.gameName := gameName;
          MatchRow.state :=
            Some (JSON_stringify (CreateMatchOpts.initialState opts));
          MatchRow.initialState :=
            Some (JSON_stringify (CreateMatchOpts.initialState opts));
          MatchRow.metadata :=
            Some (JSON_stringify (CreateMatchOpts.metadata opts));
          MatchRow.createdAt := now;
          MatchRow.updatedAt := now |}).

(** [column ? JSON.parse(column) : undefined] *)
Definition parse_column {A : Type} {J : JSON A} (column : option string)
  : M Database (option A) :=
  match column with
  | Some text =>
      if truthy column then (v <- parse text ;; ret (Some v)) else ret None
  | None => ret None
  end.

(** [if (enabled) result.field = value] *)
Definition when_enabled {A : Type} (enabled : bool) (value : M Database A)
  : M Database (option A) :=
  if enabled then (v <- value ;; ret (Some v)) else ret None.

(** [fetch(matchID, opts)] *)
Definition fetch (matchID : string) (opts : FetchOpts.t)
  : M SQLiteStore FetchResult.t :=
  with_db
    (found <- select_match matchID ;;
     match found with
     | None => ret FetchResult.empty
     | Some row =>
         st <- when_enabled (FetchOpts.state opts)
                 (parse_column (MatchRow.state row)) ;;
         md <- when_enabled (FetchOpts.metadata opts)
                 (parse_column (MatchRow.metadata row)) ;;
         ini <- when_enabled (FetchOpts.initialState opts)
                  (parse_column (MatchRow.initialState row)) ;;
         lg <- when_enabled (FetchOpts.log opts)
                 (rows <- select_logs matchID ;; map_cb parse rows) ;;
         ret {| FetchResult.state := st;
                FetchResult.log := lg;
                FetchResult.metadata := md;
                FetchResult.initialState := ini |}
     end).

(** Lines 157-167 of [setState], the check for a stale state: [true] when
    the method returns early. *)
Definition stale_check (id : string) (state : State) : M Database bool :=
  existing <- select_match id ;;
  match existing with
  | Some row =>
      match MatchRow.state row with
      | Some text =>
          if truthy (MatchRow.state row)
          then (existingState <- parse text ;;
                ret (_stateID state <=? _stateID existingState))
          else ret false
      | None => ret false
      end
  | None => ret false
  end.

(** Lines 172-190 of [setState]: the transaction that overwrites the state
    and appends the deltalog. *)
Definition write_transaction (id : string) (state : State)
    (deltalog : option (list LogEntry)) (now : Z) : M Database unit :=
  transaction
    (update_state (JSON_stringify state) now id ;;;
     match deltalog with
     | Some entries =>
         if (0 <? Z.of_nat (List.length entries))
         then for_of entries
                (fun entry => insert_log id (JSON_stringify entry))
         else ret tt
     | None => ret tt
     end).

(** [setState(id, state, deltalog?)] *)
Definition setState (id : string) (state : State)
    (deltalog : option (list LogEntry)) (now : Z) : M SQLiteStore unit :=
  with_db
    (stale <- stale_check id state ;;
     if stale then ret tt else write_transaction id state deltalog now).

(** [setMetadata(id, metadata)] *)
Definition setMetadata (id : string) (metadata : MatchData) (now : Z)
  : M SQLiteStore unit :=
  with_db (update_metadata (JSON_stringify metadata) now id).

(** [wipe(id)] *)
Definition wipe (id : string) : M SQLiteStore unit :=
  with_db (delete_match id).

(** [opts?.gameName] *)
Definition gameName_of (opts : option ListMatchesOpts.t) : option string :=
  match opts with
  | Some o => ListMatchesOpts.gameName o
  | None => None
  end.

(** [opts?.where] *)
Definition where_of (opts : option ListMatchesOpts.t)
  : option ListMatchesOpts.where_t :=
  match opts with
  | Some o => ListMatchesOpts.where_ o
  | None => None
  end.

(** [opts?.where?.updatedBefore] *)
Definition updatedBefore_of (opts : option ListMatchesOpts.t) : option Z :=
  match where_of opts with
  | Some w => ListMatchesOpts.updatedBefore w
  | None => None
  end.

(** [opts?.where?.updatedAfter] *)
Definition updatedAfter_of (opts : option ListMatchesOpts.t) : option Z :=
  match where_of opts with
  | Some w => ListMatchesOpts.updatedAfter w
  | None => None
  end.

(** [opts?.where?.isGameover] *)
Definition isGameover_of (opts : option ListMatchesOpts.t) : option bool :=
  match where_of opts with
  | Some w => ListMatchesOpts.isGameover w
  | None => None
  end.

(** The WHERE clause [listMatches] assembles: [1=1] and one conjunct for
    each of [gameName] (when truthy), [updatedBefore] and [updatedAfter]
    (when not undefined). *)
Definition where_clause (opts : option ListMatchesOpts.t) (r : MatchRow.t)
  : bool :=
  (if truthy (gameName_of opts)
   then (MatchRow.gameName r =? nullish (gameName_of opts) "")%string
   else true)
  && (match updatedBefore_of opts with
      | Some t => MatchRow.updatedAt r <? t
      | None => true
      end)
  && (match updatedAfter_of opts with
      | Some t => t <? MatchRow.updatedAt r
      | None => true
      end).

(** The callback of [rows.filter] in [listMatches]. *)
Definition gameover_filter (isGameover : bool) (row : MatchRow.t)
  : M Database bool :=
  match MatchRow.metadata row with
  | Some text =>
      if truthy (MatchRow.metadata row)
      then (metadata <- parse text ;;
            let hasGameover :=
              match gameover (metadata : MatchData) with
              | Some _ => true
              | None => false
              end in
            ret (if isGameover then hasGameover else negb hasGameover))
      else ret false
  | None => ret false
  end.

(** [listMatches(opts?)] *)
Definition listMatches (opts : option ListMatchesOpts.t)
  : M SQLiteStore (list string) :=
  with_db
    (rows <- select_matches (where_clause opts) ;;
     filtered <-
       match isGameover_of opts with
       | Some b => filter_cb (gameover_filter b) rows
       | None => ret rows
       end ;;
     ret (map MatchRow.id filtered)).
End Methods.

(* ------------------------------------------------------------------ *)
(** ** Decoding stored texts, without the monad                        *)
(* ------------------------------------------------------------------ *)

(** The outcome of a decoding step: a value, or the SyntaxError. *)
Definition decoded {A : Type} (o : option A) : Outcome A :=
  match o with
  | Some a => Returned a
  | None => Thrown SyntaxError
  end.

(** What [parse_column] computes. *)
Definition decode_column {A : Type} {J : JSON A} (column : option string)
  : option (option A) :=
  match column with
  | Some text =>
      if truthy column then option_map Some (JSON_parse text) else Some None
  | None => Some None
  end.

(** What [map_cb parse] computes. *)
Fixpoint decode_all {A : Type} {J : JSON A} (texts : list string)
  : option (list A) :=
  match texts with
  | [] => Some []
  | text :: texts' =>
      match JSON_parse text with
      | Some a => option_map (cons a) (decode_all texts')
      | None => None
      end
  end.

(** What [filter_cb] computes, for a callback that decodes. *)
Fixpoint filter_decoding {A : Type} (p : A -> option bool) (xs : list A)
  : option (list A) :=
  match xs with
  | [] => Some []
  | x :: xs' =>
      match p x with
      | Some keep =>
          option_map (fun rest => if keep then x :: rest else rest)
            (filter_decoding p xs')
      | None => None
      end
  end.

(** What [gameover_filter] computes. *)
Definition gameover_test {B : Boardgame} (isGameover : bool) (row : MatchRow.t)
  : option bool :=
  match MatchRow.metadata row with
  | Some text =>
      if truthy (MatchRow.metadata row)
      then option_map
             (fun metadata : MatchData =>
                let hasGameover :=
                  match gameover metadata with
                  | Some _ => true
                  | None => false
                  end in
                if isGameover then hasGameover else negb hasGameover)
             (JSON_parse text)
      else Some false
  | None => Some false
  end.

(** The rows the game-over filter keeps. *)
Definition gameover_keeps {B : Boardgame} (isGameover : bool) (row : MatchRow.t)
  : bool :=
  match gameover_test isGameover row with
  | Some keep => keep
  | None => false
  end.

(** The rows [listMatches] keeps from the rows its query yields. *)
Definition kept_rows {B : Boardgame} (opts : option ListMatchesOpts.t)
    (queried : list MatchRow.t) : list MatchRow.t :=
  match isGameover_of opts with
  | Some b => filter (gameover_keeps b) queried
  | None => queried
  end.

(** The in-memory filter of [listMatches] as a predicate on rows: the
    game-over test when [isGameover] is supplied, no test otherwise. *)
Definition in_memory_filter {B : Boardgame} (opts : option ListMatchesOpts.t)
    (row : MatchRow.t) : bool :=
  match isGameover_of opts with
  | Some b => gameover_keeps b row
  | None => true
  end.

(** [a] was updated no earlier than [b]. *)
Definition newer_or_same (a b : MatchRow.t) : Prop :=
  MatchRow.updatedAt b <= MatchRow.updatedAt a.

(** A computation that reads the state without changing it, whether it
    returns or throws. *)
Definition keeps {S A : Type} (c : M S A) : Prop :=
  forall s, snd (c s) = s.

(* ------------------------------------------------------------------ *)
(** ** Integrity constraints of the schema                             *)
(* ------------------------------------------------------------------ *)

Fixpoint distinct (l : list string) : bool :=
  match l with
  | [] => true
  | x :: l' => negb (existsb (String.eqb x) l') && distinct l'
  end.

(** [id TEXT PRIMARY KEY] on [matches]. *)
Definition primary_key_ok (d : Database) : bool :=
  distinct (map MatchRow.id (matches d)).

(** [FOREIGN KEY (matchId) REFERENCES matches(id)] on [logs]. *)
Definition foreign_key_ok (d : Database) : bool :=
  forallb (fun l => existsb (id_is (LogRow.matchId l)) (matches d)) (logs d).

(** Both constraints. *)
Definition integrity (d : Database) : bool :=
  primary_key_ok d && foreign_key_ok d.

Definition sound (d : Database) : Prop := integrity d = true.

(** A computation that keeps a property of the database, whether it
    returns or throws. *)
Definition preserves {A : Type} (P : Database -> Prop) (c : M Database A)
  : Prop :=
  forall d, P d -> P (snd (c d)).

(** The store is connected to database [d]. *)
Definition connected (s : SQLiteStore) (d : Database) : Prop :=
  db s = Some d.

(* ------------------------------------------------------------------ *)
(** ** Method calls as data, and runs of calls                         *)
(* ------------------------------------------------------------------ *)

(** A call of one of the six data methods. *)
Inductive Call {B : Boardgame} : Type :=
| CreateMatch (id : string) (opts : CreateMatchOpts.t) (now : Z)
| Fetch (matchID : string) (opts : FetchOpts.t)
| SetState (id : string) (state : State)
    (deltalog : option (list LogEntry)) (now : Z)
| SetMetadata (id : string) (metadata : MatchData) (now : Z)
| Wipe (id : string)
| ListMatches (opts : option ListMatchesOpts.t).

(** The store a call leaves behind, whatever it returns or throws. *)
Definition perform {B : Boardgame} (c : Call) (s : SQLiteStore) : SQLiteStore :=
  match c with
  | CreateMatch id opts now => snd (createMatch id opts now s)
  | Fetch matchID opts => snd (fetch matchID opts s)
  | SetState id state deltalog now => snd (setState id state deltalog now s)
  | SetMetadata id metadata now => snd (setMetadata id metadata now s)
  | Wipe id => snd (wipe id s)
  | ListMatches opts => snd (listMatches opts s)
  end.

Definition perform_all {B : Boardgame} (calls : list Call) (s : SQLiteStore)
  : SQLiteStore :=
  fold_left (fun s c => perform c s) calls s.

Definition is_wipe_of {B : Boardgame} (id : string) (c : Call) : bool :=
  match c with
  | Wipe j => (j =? id)%string
  | _ => false
  end.

(** The arguments of one [setState] call on a fixed match, with the clock
    it reads. *)
Module SetStateArgs.
Record t {B : Boardgame} : Type := mk {
  state : State;
  deltalog : option (list LogEntry);
  now : Z
}.
End SetStateArgs.

(** [setState] called once for each element of [calls], in order, on the
    same match. *)
Definition setState_each {B : Boardgame} (id : string)
    (calls : list SetStateArgs.t) : M SQLiteStore unit :=
  for_of calls
    (fun c => setState id (SetStateArgs.state c) (SetStateArgs.deltalog c)
                (SetStateArgs.now c)).

(** The sequence number of the state stored for a match, if the match has
    a state that decodes. *)
Definition stored_stateID {B : Boardgame} (id : string) (s : SQLiteStore)
  : option Z :=
  match db s with
  | Some d =>
      match find_match id d with
      | Some r =>
          match MatchRow.state r with
          | Some text => option_map _stateID (JSON_parse text)
          | None => None
          end
      | None => None
      end
  | None => None
  end.

(** The spec's reading of the write protocol, for comparison with the
    code: of a run of calls on a match whose stored sequence number is
    [stored], the accepted calls are those whose sequence number exceeds
    the one stored when they arrive; an accepted call's number becomes the
    stored one. *)
Fixpoint accepted {B : Boardgame} (stored : Z) (calls : list SetStateArgs.t)
  : list SetStateArgs.t :=
  match calls with
  | [] => []
  | c :: calls' =>
      if _stateID (SetStateArgs.state c) <=? stored
      then accepted stored calls'
      else c :: accepted (_stateID (SetStateArgs.state c)) calls'
  end.

(** A run in which every call is accepted: the sequence numbers increase
    strictly, starting above the stored one. *)
Fixpoint increasing {B : Boardgame} (stored : Z) (calls : list SetStateArgs.t)
  : bool :=
  match calls with
  | [] => true
  | c :: calls' =>
      (stored <? _stateID (SetStateArgs.state c))
      && increasing (_stateID (SetStateArgs.state c)) calls'
  end.

(** The log entries a list of calls carries, in call order and, within a
    call, in batch order. *)
Definition batches {B : Boardgame} (calls : list SetStateArgs.t)
  : list LogEntry :=
  List.concat (map (fun c => nullish (SetStateArgs.deltalog c) []) calls).

(** The largest of [stored] and the sequence numbers of [calls]. *)
Definition max_stateID {B : Boardgame} (stored : Z)
    (calls : list SetStateArgs.t) : Z :=
  fold_right Z.max stored
    (map (fun c => _stateID (SetStateArgs.state c)) calls).

(* ------------------------------------------------------------------ *)
(** ** Two connections on one database file                            *)
(* ------------------------------------------------------------------ *)








Section Race.
Context {B : Boardgame}.
Variable id : string.
Variables call1 call2 : SetStateArgs.t.



End Race.



(* ------------------------------------------------------------------ *)
(** ** Views of calls and results                                      *)
(* ------------------------------------------------------------------ *)

(** A field of the result of [fetch]: not assigned when the selector is
    off, the decoding of the column when it is on. *)
Definition fetched_column {A : Type} {J : JSON A} (enabled : bool)
    (column : option string) : option (option (option A)) :=
  if enabled then option_map Some (decode_column column) else Some None.

(** What [fetch] computes from the row it finds and the log texts it
    reads. *)
Definition fetch_returns {B : Boardgame} (opts : FetchOpts.t)
    (found : option MatchRow.t) (texts : list string)
  : Outcome FetchResult.t :=
  match found with
  | None => Returned FetchResult.empty
  | Some row =>
      match fetched_column (FetchOpts.state opts) (MatchRow.state row),
            fetched_column (FetchOpts.metadata opts) (MatchRow.metadata row),
            fetched_column (FetchOpts.initialState opts)
              (MatchRow.initialState row),
            (if FetchOpts.log opts
             then option_map Some (decode_all texts)
             else Some None) with
      | Some st, Some md, Some ini, Some lg =>
          Returned {| FetchResult.state := st;
                      FetchResult.log := lg;
                      FetchResult.metadata := md;
                      FetchResult.initialState := ini |}
      | _, _, _, _ => Thrown SyntaxError
      end
  end.

(** How a fetched field relates to its column: [undefined] for a column
    that is NULL or empty, the decoded value for any other. *)
Definition column_fetched {A : Type} {J : JSON A} (column : option string)
    (field : option (option A)) : Prop :=
  (truthy column = false -> field = Some None)
  /\ (forall text,
        column = Some text -> truthy column = true ->
        exists v, JSON_parse text = Some v /\ field = Some (Some v)).

(** A column [fetch] cannot decode: not empty, and rejected by
    [JSON.parse]. *)
Definition undecodable (A : Type) {J : JSON A} (column : option string) : Prop :=
  exists text,
    column = Some text /\ truthy column = true
    /\ JSON_parse (A := A) text = None.
Arguments undecodable A {J} column.

(** The row and the log of match [j], as a property a statement may
    keep. *)
Definition shows (j : string) (found : option MatchRow.t) (texts : list string)
    (d : Database) : Prop :=
  find_match j d = found /\ logs_of j d = texts.

(** The error an outcome carries, if it is a throw. *)
Definition error_of {A : Type} (o : Outcome A) : option Error :=
  match o with
  | Returned _ => None
  | Thrown e => Some e
  end.

(** The error a call throws, if it throws. *)
Definition thrown_by {B : Boardgame} (c : Call) (s : SQLiteStore)
  : option Error :=
  match c with
  | CreateMatch id opts now => error_of (fst (createMatch id opts now s))
  | Fetch matchID opts => error_of (fst (fetch matchID opts s))
  | SetState id state deltalog now =>
      error_of (fst (setState id state deltalog now s))
  | SetMetadata id metadata now => error_of (fst (setMetadata id metadata now s))
  | Wipe id => error_of (fst (wipe id s))
  | ListMatches opts => error_of (fst (listMatches opts s))
  end.

(** The call is a write addressed to match [j]. *)
Definition writes_to {B : Boardgame} (j : string) (c : Call) : bool :=
  match c with
  | CreateMatch i _ _ => (i =? j)%string
  | SetState i _ _ _ => (i =? j)%string
  | SetMetadata i _ _ => (i =? j)%string
  | Wipe i => (i =? j)%string
  | Fetch _ _ => false
  | ListMatches _ => false
  end.

Fixpoint distinct_rowids (l : list Z) : bool :=
  match l with
  | [] => true
  | x :: l' => negb (existsb (Z.eqb x) l') && distinct_rowids l'
  end.

(** [id INTEGER PRIMARY KEY AUTOINCREMENT] on [logs]: no rowid occurs
    twice, and none exceeds the largest one handed out. *)
Definition log_key_ok (d : Database) : bool :=
  distinct_rowids (map LogRow.id (logs d))
  && forallb (fun l => LogRow.id l <=? sqlite_sequence d) (logs d).

(** The key of [logs] is in force, the counter has not gone below [n], and
    every log row is a row of [old] or has a rowid above [n]. *)
Definition rowids_fresh (old : list LogRow.t) (n : Z) (d : Database) : Prop :=
  log_key_ok d = true
  /\ n <= sqlite_sequence d
  /\ (forall l, In l (logs d) -> In l old \/ n < LogRow.id l).

(** The ids [listMatches] returns when it returns, the empty list when it
    throws. *)
Definition listed {B : Boardgame} (opts : option ListMatchesOpts.t)
    (s : SQLiteStore) : list string :=
  match fst (listMatches opts s) with
  | Returned ids => ids
  | Thrown _ => []
  end.

(* ------------------------------------------------------------------ *)
(** ** A small game, to run the store on                               *)
(* ------------------------------------------------------------------ *)

(** A game whose state and log entries are plain counters, written in
    decimal, and whose metadata holds an optional name and a game-over
    mark: a first character [1] or [0] for the mark, then [:] and the name
    when there is one. *)
Module Demo.
Record metadata_t : Type := mk_metadata {
  name : option string;
  over : option unit
}.

Definition stringify_Z (z : Z) : string :=
  NilEmpty.string_of_int (Z.to_int z).

Definition parse_Z (text : string) : option Z :=
  option_map Z.of_int (NilEmpty.int_of_string text).

Definition stringify_metadata (m : metadata_t) : string :=
  String (match over m with Some _ => "1"%char | None => "0"%char end)
         (match name m with
          | Some n => String ":"%char n
          | None => EmptyString
          end).

Definition parse_metadata (text : string) : option metadata_t :=
  match text with
  | String c rest =>
      let o := if (c =? "1")%char then Some (Some tt)
               else if (c =? "0")%char then Some None
               else None in
      match o, rest with
      | Some ov, EmptyString => Some {| name := None; over := ov |}
      | Some ov, String sep n =>
          if (sep =? ":")%char then Some {| name := Some n; over := ov |}
          else None
      | None, _ => None
      end
  | EmptyString => None
  end.

#[export] Instance JSON_Z : JSON Z :=
  {| JSON_stringify := stringify_Z; JSON_parse := parse_Z |}.

#[export] Instance JSON_metadata : JSON metadata_t :=
  {| JSON_stringify := stringify_metadata; JSON_parse := parse_metadata |}.

Definition game : Boardgame :=
  {| State := Z;
     _stateID := fun st => st;
     LogEntry := Z;
     MatchData := metadata_t;
     Gameover := unit;
     gameName := name;
     gameover := over;
     State_JSON := JSON_Z;
     LogEntry_JSON := JSON_Z;
     MatchData_JSON := JSON_metadata |}.

Definition row (i g : string) (st ini md : option string) (c u : Z)
  : MatchRow.t :=
  {| MatchRow.id := i; MatchRow.gameName := g; MatchRow.state := st;
     MatchRow.initialState := ini; MatchRow.metadata := md;
     MatchRow.createdAt := c; MatchRow.updatedAt := u |}.

(** A store connected to a database with three matches: A (game g1,
    running, updated at 100), B (game g1, over, updated at 300) and C
    (game g2, metadata NULL, updated at 200), and two log rows of A. *)
Local Open Scope string_scope.

Definition sample_db : Database :=
  {| matches :=
       [ row "A" "g1" (Some "0") (Some "0") (Some "0:g1") 100 100;
         row "B" "g1" (Some "4") (Some "0") (Some "1:g1") 150 300;
         row "C" "g2" (Some "2") (Some "0") None 200 200 ];
     logs :=
       [ {| LogRow.id := 1; LogRow.matchId := "B"; LogRow.logEntry := "11" |};
         {| LogRow.id := 2; LogRow.matchId := "B"; LogRow.logEntry := "12" |} ];
     sqlite_sequence := 2 |}.

Definition sample_store : SQLiteStore := {| db := Some sample_db |}.

Definition row_A : MatchRow.t :=
  row "A" "g1" (Some "0") (Some "0") (Some "0:g1") 100 100.

Definition row_B : MatchRow.t :=
  row "B" "g1" (Some "4") (Some "0") (Some "1:g1") 150 300.

Definition row_C : MatchRow.t :=
  row "C" "g2" (Some "2") (Some "0") None 200 200.



(** A run of calls on match B, whose stored sequence number is 4. *)
Definition sample_calls : list (@SetStateArgs.t game) :=
  [ @SetStateArgs.mk game 5 (Some [13; 14]) 500;
    @SetStateArgs.mk game 3 (Some [99]) 600;
    @SetStateArgs.mk game 6 None 700;
    @SetStateArgs.mk game 9 (Some [15]) 800 ].

Definition create_opts : @CreateMatchOpts.t game :=
  @CreateMatchOpts.mk game 0 {| name := Some "g3"; over := None |}.

(** A database written by other hands: match X holds a state and a
    metadata text that do not decode, match N holds no state and no
    metadata at all, and the one log text of X does not decode either. *)
Definition row_X : MatchRow.t :=
  row "X" "g1" (Some "oops") (Some "0") (Some "?") 10 10.

Definition row_N : MatchRow.t :=
  row "N" "g1" None (Some "0") None 20 20.

Definition broken_db : Database :=
  {| matches := [row_X; row_N];
     logs := [ {| LogRow.id := 1; LogRow.matchId := "X";
                  LogRow.logEntry := "zz" |} ];
     sqlite_sequence := 1 |}.

Definition broken_store : SQLiteStore := {| db := Some broken_db |}.
End Demo.

(* ================================================================== *)
(** * Properties                                                       *)
(* ================================================================== *)

(** ** The demo game satisfies the round-trip laws                     *)

Lemma Demo_parse_stringify_Z (z : Z) :
  Demo.parse_Z (Demo.stringify_Z z) = Some z.
Proof.
  unfold Demo.parse_Z, Demo.stringify_Z.
  rewrite NilEmpty.isi. simpl. now rewrite DecimalZ.of_to.
Qed.

Lemma Demo_stringify_Z_truthy (z : Z) : Demo.stringify_Z z <> EmptyString.
Proof.
  intros E. pose proof (Demo_parse_stringify_Z z) as R.
  rewrite E in R. cbv in R. inversion R; subst z. discriminate E.
Qed.

Lemma Demo_parse_stringify_metadata (m : Demo.metadata_t) :
  Demo.parse_metadata (Demo.stringify_metadata m) = Some m.
Proof. destruct m as [[n|] [[]|]]; reflexivity. Qed.

#[export] Instance Demo_JSONLaws_Z : JSONLaws Z (J := Demo.JSON_Z).
Proof.
  split; [exact Demo_parse_stringify_Z | exact Demo_stringify_Z_truthy].
Qed.

#[export] Instance Demo_JSONLaws_metadata :
  JSONLaws Demo.metadata_t (J := Demo.JSON_metadata).
Proof.
  split; [exact Demo_parse_stringify_metadata | intros m; discriminate].
Qed.

#[export] Instance Demo_laws : BoardgameLaws Demo.game.
Proof.
  split; [exact Demo_JSONLaws_Z | exact Demo_JSONLaws_Z
         | exact Demo_JSONLaws_metadata].
Qed.

(** ** Running a method on a connected store                           *)

Lemma connected_eta (s : SQLiteStore) (d : Database) :
  connected s d -> s = {| db := Some d |}.
Proof. destruct s as [o]; unfold connected; simpl; intros ->; reflexivity. Qed.

Lemma with_db_connected {A : Type} (body : M Database A) s d :
  connected s d ->
  with_db body s = (fst (body d), {| db := Some (snd (body d)) |}).
Proof.
  unfold connected, with_db. intros ->. destruct (body d); reflexivity.
Qed.

Lemma with_db_unchanged {A : Type} (body : M Database A) s d o :
  connected s d -> body d = (o, d) -> with_db body s = (o, s).
Proof.
  intros Hc Hb. rewrite (with_db_connected _ Hc), Hb. simpl.
  now rewrite <- (connected_eta Hc).
Qed.

Lemma with_db_inv {A : Type} (body : M Database A) s d o s' :
  connected s d ->
  with_db body s = (o, s') ->
  exists d', body d = (o, d') /\ s' = {| db := Some d' |}.
Proof.
  intros Hc. rewrite (with_db_connected _ Hc).
  destruct (body d) as [o1 d1]. simpl. inversion 1; subst. now exists d1.
Qed.

Lemma with_db_disconnected {A : Type} (body : M Database A) s :
  db s = None -> with_db body s = (Thrown NotConnected, s).
Proof. unfold with_db. intros ->. reflexivity. Qed.

(** ** Rows with and without a given id                                *)

Lemma find_match_none_forall i d :
  find_match i d = None -> forall r, In r (matches d) -> id_is i r = false.
Proof. unfold find_match. intros H r Hr. exact (find_none _ _ H r Hr). Qed.

Lemma find_match_none_existsb i d :
  find_match i d = None -> existsb (id_is i) (matches d) = false.
Proof.
  intros H. destruct (existsb (id_is i) (matches d)) eqn:E; [|reflexivity].
  apply existsb_exists in E. destruct E as (r & Hr & Hi).
  rewrite (find_match_none_forall _ _ H r Hr) in Hi. discriminate.
Qed.

Lemma find_match_some_existsb i d r :
  find_match i d = Some r -> existsb (id_is i) (matches d) = true.
Proof.
  unfold find_match. intros H. apply find_some in H.
  apply existsb_exists. exists r. exact H.
Qed.

Lemma update_unknown_id (set : MatchRow.t -> MatchRow.t) i d :
  find_match i d = None ->
  map (update_row set i) (matches d) = matches d.
Proof.
  intros H. rewrite <- (map_id (matches d)) at 2.
  apply map_ext_in. intros r Hr. unfold update_row.
  now rewrite (find_match_none_forall _ _ H r Hr).
Qed.

Lemma delete_unknown_id i d :
  find_match i d = None ->
  filter (fun r => negb (id_is i r)) (matches d) = matches d.
Proof.
  intros H. apply forallb_filter_id. apply forallb_forall. intros r Hr.
  now rewrite (find_match_none_forall _ _ H r Hr).
Qed.

Lemma update_matches_unknown_id set i d :
  find_match i d = None -> update_matches set i d = (Returned tt, d).
Proof.
  intros H. unfold update_matches. rewrite (update_unknown_id _ _ _ H).
  destruct d; reflexivity.
Qed.

(** ** Mutations at an unknown id                                      *)

(** C7. For an id with no row in [matches], [setMetadata] and [wipe] on a
    connected store return normally and leave the store exactly as it
    was. *)
Theorem unknown_id_setMetadata_wipe_noop
    {B : Boardgame} (s : SQLiteStore) (d : Database)
    (id : string) (metadata : MatchData) (now : Z) :
  connected s d ->
  find_match id d = None ->
  setMetadata id metadata now s = (Returned tt, s)
  /\ wipe id s = (Returned tt, s).
Proof.
  intros Hc Hn. unfold setMetadata, wipe.
  rewrite !(with_db_connected _ Hc). split.
  - unfold update_metadata. rewrite (update_matches_unknown_id _ _ _ Hn).
    simpl. now rewrite <- (connected_eta Hc).
  - unfold delete_match. rewrite (delete_unknown_id _ _ Hn).
    rewrite (find_match_none_existsb _ _ Hn). simpl.
    rewrite (connected_eta Hc). destruct d; reflexivity.
Qed.

Lemma unknown_id_setMetadata_wipe_noop_witness :
  setMetadata (B := Demo.game) "nobody"
    {| Demo.name := None; Demo.over := Some tt |} 500 Demo.sample_store
  = (Returned tt, Demo.sample_store)
  /\ wipe "nobody" Demo.sample_store = (Returned tt, Demo.sample_store).
Proof.
  apply (@unknown_id_setMetadata_wipe_noop Demo.game Demo.sample_store
           Demo.sample_db); reflexivity.
Defined.

(** C10. For an id with no row in [matches], [setState] on a connected
    store finds nothing to compare with, so the stale check lets the call
    through; without a deltalog, or with an empty one, the call returns
    normally and the store is unchanged; with a non-empty deltalog the
    first INSERT into [logs] fails on the foreign key, the transaction is
    rolled back and the store is unchanged. *)
Theorem unknown_id_setState
    {B : Boardgame} (s : SQLiteStore) (d : Database)
    (id : string) (state : State) (now : Z) :
  connected s d ->
  find_match id d = None ->
  stale_check id state d = (Returned false, d)
  /\ setState id state None now s = (Returned tt, s)
  /\ setState id state (Some []) now s = (Returned tt, s)
  /\ (forall entry entries,
        setState id state (Some (entry :: entries)) now s
        = (Thrown (SqliteError SQLITE_CONSTRAINT_FOREIGNKEY), s)).
Proof.
  intros Hc Hn.
  assert (Hs : stale_check id state d = (Returned false, d)).
  { unfold stale_check, bind, select_match. now rewrite Hn. }
  assert (Hu : forall text, update_state text now id d = (Returned tt, d)).
  { intros text. apply update_matches_unknown_id, Hn. }
  split; [exact Hs|].
  unfold setState. repeat split; intros; apply (with_db_unchanged _ Hc);
    unfold bind; rewrite Hs; unfold write_transaction, transaction, bind;
    rewrite Hu; simpl; try reflexivity.
  unfold bind, insert_log. now rewrite (find_match_none_existsb _ _ Hn).
Qed.

Lemma unknown_id_setState_witness :
  stale_check (B := Demo.game) "nobody" 7 Demo.sample_db
  = (Returned false, Demo.sample_db)
  /\ setState (B := Demo.game) "nobody" 7 None 500 Demo.sample_store
     = (Returned tt, Demo.sample_store)
  /\ setState (B := Demo.game) "nobody" 7 (Some []) 500 Demo.sample_store
     = (Returned tt, Demo.sample_store)
  /\ (forall entry entries,
        setState (B := Demo.game) "nobody" 7 (Some (entry :: entries)) 500
          Demo.sample_store
        = (Thrown (SqliteError SQLITE_CONSTRAINT_FOREIGNKEY),
           Demo.sample_store)).
Proof.
  apply (@unknown_id_setState Demo.game Demo.sample_store Demo.sample_db);
    reflexivity.
Defined.

(** ** fetch                                                           *)

Lemma when_enabled_disabled {A : Type} (value : M Database A) d :
  when_enabled false value d = (Returned None, d).
Proof. reflexivity. Qed.

Lemma parse_run {S A : Type} {J : JSON A} text (s : S) :
  parse (A := A) text s = (decoded (JSON_parse text), s).
Proof. unfold parse. destruct (JSON_parse text); reflexivity. Qed.

Lemma parse_column_run {A : Type} {J : JSON A} column d :
  parse_column (A := A) column d = (decoded (decode_column column), d).
Proof.
  unfold parse_column, decode_column.
  destruct column as [text|]; [|reflexivity].
  destruct (truthy (Some text)); [|reflexivity].
  unfold bind. rewrite parse_run. destruct (JSON_parse text); reflexivity.
Qed.

Lemma map_cb_parse_run {S A : Type} {J : JSON A} texts (s : S) :
  map_cb (parse (A := A)) texts s = (decoded (decode_all texts), s).
Proof.
  induction texts as [|text texts IH]; [reflexivity|].
  simpl. unfold bind. rewrite parse_run.
  destruct (JSON_parse text) as [a|]; [|reflexivity].
  simpl. rewrite IH. destruct (decode_all texts); reflexivity.
Qed.

Lemma when_enabled_keeps {A : Type} enabled (value : M Database A) d o d' :
  (forall o1 d1, value d = (o1, d1) -> d1 = d) ->
  when_enabled enabled value d = (o, d') -> d' = d.
Proof.
  intros Hv. unfold when_enabled, bind, ret. destruct enabled.
  - destruct (value d) as [[a|e] d1]; inversion 1; subst;
      exact (Hv _ _ eq_refl).
  - now inversion 1.
Qed.

(** What [when_enabled] leaves in the result: nothing when the selector is
    off, something when it is on. *)
Lemma when_enabled_returned {A : Type} enabled (value : M Database A) d v d' :
  when_enabled enabled value d = (Returned v, d') ->
  (if enabled then v <> None else v = None).
Proof.
  unfold when_enabled, bind, ret. destruct enabled.
  - destruct (value d) as [[a|e] d1]; inversion 1; discriminate.
  - now inversion 1.
Qed.

(** C6. On a connected store, [fetch] of an id with no row returns the
    empty object; and whenever [fetch] returns, it has left the store as
    it was and every field the selector does not enable is absent from
    the result, while (the row existing) every field it enables has been
    assigned. *)
Theorem fetch_field_selection
    {B : Boardgame} (s : SQLiteStore) (d : Database)
    (matchID : string) (opts : FetchOpts.t) :
  connected s d ->
  (find_match matchID d = None ->
   fetch matchID opts s = (Returned FetchResult.empty, s))
  /\ (forall r s',
        fetch matchID opts s = (Returned r, s') ->
        s' = s
        /\ (FetchOpts.state opts = false -> FetchResult.state r = None)
        /\ (FetchOpts.metadata opts = false -> FetchResult.metadata r = None)
        /\ (FetchOpts.initialState opts = false ->
            FetchResult.initialState r = None)
        /\ (FetchOpts.log opts = false -> FetchResult.log r = None)
        /\ (find_match matchID d <> None ->
            (FetchOpts.state opts = true -> FetchResult.state r <> None)
            /\ (FetchOpts.metadata opts = true ->
                FetchResult.metadata r <> None)
            /\ (FetchOpts.initialState opts = true ->
                FetchResult.initialState r <> None)
            /\ (FetchOpts.log opts = true -> FetchResult.log r <> None))).
Proof.
  intros Hc. split.
  - intros Hn. unfold fetch. apply (with_db_unchanged _ Hc).
    unfold bind, select_match. now rewrite Hn.
  - intros r s' Hr. unfold fetch in Hr.
    destruct (with_db_inv _ Hc Hr) as (d' & Hb & ->). clear Hr.
    revert Hb. unfold bind at 1. unfold select_match.
    destruct (find_match matchID d) as [row|] eqn:Hf.
    + unfold bind.
      destruct (when_enabled (FetchOpts.state opts) _ d) as [[st|e] d1] eqn:E1;
        [|inversion 1].
      assert (K1 : d1 = d).
      { eapply when_enabled_keeps; [|exact E1].
        intros o1 dd. rewrite parse_column_run. now inversion 1. }
      subst d1.
      destruct (when_enabled (FetchOpts.metadata opts) _ d)
        as [[md|e] d2] eqn:E2; [|inversion 1].
      assert (K2 : d2 = d).
      { eapply when_enabled_keeps; [|exact E2].
        intros o1 dd. rewrite parse_column_run. now inversion 1. }
      subst d2.
      destruct (when_enabled (FetchOpts.initialState opts) _ d)
        as [[ini|e] d3] eqn:E3; [|inversion 1].
      assert (K3 : d3 = d).
      { eapply when_enabled_keeps; [|exact E3].
        intros o1 dd. rewrite parse_column_run. now inversion 1. }
      subst d3.
      destruct (when_enabled (FetchOpts.log opts) _ d)
        as [[lg|e] d4] eqn:E4; [|inversion 1].
      assert (K4 : d4 = d).
      { eapply when_enabled_keeps; [|exact E4].
        intros o1 dd. unfold select_logs. rewrite map_cb_parse_run.
        destruct (decode_all _); now inversion 1. }
      subst d4.
      unfold ret. intros E. inversion E; subst r d'. clear E. simpl.
      pose proof (when_enabled_returned _ _ _ E1) as P1.
      pose proof (when_enabled_returned _ _ _ E2) as P2.
      pose proof (when_enabled_returned _ _ _ E3) as P3.
      pose proof (when_enabled_returned _ _ _ E4) as P4.
      split; [symmetry; exact (connected_eta Hc)|].
      destruct (FetchOpts.state opts), (FetchOpts.metadata opts),
        (FetchOpts.initialState opts), (FetchOpts.log opts);
        repeat split; intros; try discriminate; assumption.
    + unfold ret. intros E. inversion E; subst r d'. simpl.
      split; [symmetry; exact (connected_eta Hc)|].
      do 4 (split; [intros _; reflexivity|]). intros K. now elim K.
Qed.

Lemma fetch_field_selection_witness :
  (find_match "B" Demo.sample_db = None ->
   fetch (B := Demo.game) "B" (FetchOpts.mk true false false false)
     Demo.sample_store
   = (Returned FetchResult.empty, Demo.sample_store))
  /\ (forall r s',
        fetch (B := Demo.game) "B" (FetchOpts.mk true false false false)
          Demo.sample_store = (Returned r, s') ->
        s' = Demo.sample_store
        /\ (true = false -> FetchResult.state r = None)
        /\ (false = false -> FetchResult.metadata r = None)
        /\ (false = false -> FetchResult.initialState r = None)
        /\ (false = false -> FetchResult.log r = None)
        /\ (find_match "B" Demo.sample_db <> None ->
            (true = true -> FetchResult.state r <> None)
            /\ (false = true -> FetchResult.metadata r <> None)
            /\ (false = true -> FetchResult.initialState r <> None)
            /\ (false = true -> FetchResult.log r <> None))).
Proof.
  apply (@fetch_field_selection Demo.game Demo.sample_store Demo.sample_db
           "B" (FetchOpts.mk true false false false)).
  reflexivity.
Defined.

(** ** ORDER BY                                                        *)

Section OrderByFacts.
Variable A : Type.
Variable precedes : A -> A -> bool.

Let R (a b : A) : Prop := precedes a b = true.

Lemma insert_row_perm x l : Permutation (insert_row precedes x l) (x :: l).
Proof.
  induction l as [|y l IH]; simpl; [reflexivity|].
  destruct (precedes x y); [reflexivity|].
  rewrite IH. apply perm_swap.
Qed.

Lemma order_by_perm l : Permutation (order_by precedes l) l.
Proof.
  induction l as [|x l IH]; simpl; [reflexivity|].
  rewrite insert_row_perm. now constructor.
Qed.

(** A row that precedes the last row is inserted in front of it. *)
Lemma insert_row_before_last x l y :
  precedes x y = true ->
  insert_row precedes x (l ++ [y]) = insert_row precedes x l ++ [y].
Proof.
  intros H. induction l as [|z l IH]; simpl.
  - now rewrite H.
  - destruct (precedes x z); [reflexivity|]. now rewrite IH.
Qed.

(** Appending a row that every row precedes appends it to the ordered
    result. *)
Lemma order_by_last l y :
  (forall x, In x l -> precedes x y = true) ->
  order_by precedes (l ++ [y]) = order_by precedes l ++ [y].
Proof.
  induction l as [|x l IH]; intros H; simpl; [reflexivity|].
  rewrite IH by (intros z Hz; apply H; now right).
  apply insert_row_before_last. apply H. now left.
Qed.

Hypothesis precedes_total :
  forall a b, precedes a b = false -> precedes b a = true.
Hypothesis precedes_trans :
  forall a b c, precedes a b = true -> precedes b c = true ->
                precedes a c = true.

Lemma insert_row_sorted x l :
  StronglySorted R l -> StronglySorted R (insert_row precedes x l).
Proof.
  induction 1 as [|y l Hs IH Hy]; simpl.
  - constructor; constructor.
  - destruct (precedes x y) eqn:E.
    + constructor; [now constructor|].
      constructor; [exact E|].
      eapply Forall_impl; [|exact Hy].
      intros z Hz. exact (precedes_trans E Hz).
    + constructor; [exact IH|].
      eapply Permutation_Forall; [symmetry; apply insert_row_perm|].
      constructor; [exact (precedes_total E) | exact Hy].
Qed.

Lemma order_by_sorted l : StronglySorted R (order_by precedes l).
Proof.
  induction l as [|x l IH]; simpl; [constructor|].
  now apply insert_row_sorted.
Qed.
End OrderByFacts.


(** The backing query of [listMatches] yields its rows newest first. *)
Lemma rows_where_sorted cond d :
  StronglySorted newer_or_same (rows_where cond d).
Proof.
  unfold rows_where.
  eapply StronglySorted_ind with
    (P := fun l => StronglySorted newer_or_same l);
    [constructor | | apply (@order_by_sorted _ updatedAt_desc)].
  - intros a l Hs IH Ha. constructor; [exact IH|].
    eapply Forall_impl; [|exact Ha].
    intros b Hb. unfold newer_or_same. unfold updatedAt_desc in Hb. lia.
  - intros a b Hab. unfold updatedAt_desc in *. lia.
  - intros a b c H1 H2. unfold updatedAt_desc in *. lia.
Qed.

Lemma rows_where_perm cond d :
  Permutation (rows_where cond d) (filter cond (matches d)).
Proof. apply order_by_perm. Qed.

(** ** listMatches                                                     *)

Lemma filter_cb_run {S A : Type} (p : A -> M S bool) (q : A -> option bool) :
  (forall x s, p x s = (decoded (q x), s)) ->
  forall xs s, filter_cb p xs s = (decoded (filter_decoding q xs), s).
Proof.
  intros Hp. induction xs as [|x xs IH]; intros s; [reflexivity|].
  simpl. unfold bind. rewrite Hp.
  destruct (q x) as [keep|]; [|reflexivity].
  simpl. rewrite IH. destruct (filter_decoding q xs); reflexivity.
Qed.

Lemma filter_decoding_some {A : Type} (q : A -> option bool) xs ys :
  filter_decoding q xs = Some ys ->
  ys = filter (fun x => match q x with Some keep => keep | None => false end) xs.
Proof.
  revert ys. induction xs as [|x xs IH]; simpl; intros ys.
  - now inversion 1.
  - destruct (q x) as [keep|]; [|discriminate].
    destruct (filter_decoding q xs) as [rest|]; [|discriminate].
    simpl. inversion 1. rewrite (IH rest eq_refl). now destruct keep.
Qed.

Lemma gameover_filter_run {B : Boardgame} b row d :
  gameover_filter b row d = (decoded (gameover_test b row), d).
Proof.
  unfold gameover_filter, gameover_test.
  destruct (MatchRow.metadata row) as [text|]; [|reflexivity].
  destruct (truthy (Some text)); [|reflexivity].
  unfold bind. rewrite parse_run.
  destruct (JSON_parse text); reflexivity.
Qed.

Lemma listMatches_returned {B : Boardgame} s d opts ids s' :
  connected s d ->
  listMatches opts s = (Returned ids, s') ->
  ids = map MatchRow.id (kept_rows opts (rows_where (where_clause opts) d))
  /\ s' = s.
Proof.
  intros Hc Hr. unfold listMatches in Hr.
  destruct (with_db_inv _ Hc Hr) as (d' & Hb & ->). clear Hr.
  revert Hb. unfold bind at 1. unfold select_matches, kept_rows.
  destruct (isGameover_of opts) as [b|].
  - unfold bind. rewrite (@filter_cb_run _ _ _ _ (gameover_filter_run b)).
    destruct (filter_decoding _ _) as [rows|] eqn:E; simpl; [|inversion 1].
    unfold ret. inversion 1; subst.
    rewrite (@filter_decoding_some _ _ _ _ E).
    split; [reflexivity | symmetry; exact (connected_eta Hc)].
  - unfold bind, ret. inversion 1; subst.
    split; [reflexivity | symmetry; exact (connected_eta Hc)].
Qed.

Lemma truthy_some g : truthy (Some g) = true <-> g <> ""%string.
Proof.
  simpl. destruct (String.eqb_spec g ""); simpl; split; intros; congruence.
Qed.

(** The WHERE clause is the conjunction of the filters supplied: the
    game name (a non-empty one), [updatedBefore] and [updatedAfter]. *)
Lemma where_clause_spec {B : Boardgame} opts r :
  where_clause opts r = true <->
  (forall g, gameName_of opts = Some g -> g <> ""%string ->
             MatchRow.gameName r = g)
  /\ (forall t, updatedBefore_of opts = Some t -> MatchRow.updatedAt r < t)
  /\ (forall t, updatedAfter_of opts = Some t -> t < MatchRow.updatedAt r).
Proof.
  unfold where_clause. rewrite !andb_true_iff.
  assert (G : (if truthy (gameName_of opts)
               then (MatchRow.gameName r =? nullish (gameName_of opts) "")%string
               else true) = true <->
              (forall g, gameName_of opts = Some g -> g <> ""%string ->
                         MatchRow.gameName r = g)).
  { destruct (gameName_of opts) as [g|]; [|simpl; split; [discriminate 2|reflexivity]].
    destruct (truthy (Some g)) eqn:T.
    - simpl. rewrite String.eqb_eq. split.
      + intros E g' Hg' _. now inversion Hg'; subst.
      + intros H. apply H; [reflexivity|]. now apply truthy_some.
    - split; [|reflexivity]. intros _ g' Hg' Hne. inversion Hg'; subst g'.
      apply truthy_some in Hne. congruence. }
  assert (Bf : match updatedBefore_of opts with
               | Some t => MatchRow.updatedAt r <? t
               | None => true
               end = true <->
               (forall t, updatedBefore_of opts = Some t ->
                          MatchRow.updatedAt r < t)).
  { destruct (updatedBefore_of opts) as [t|].
    - rewrite Z.ltb_lt. split; [intros H t' E; now inversion E; subst|].
      intros H. now apply H.
    - split; [discriminate 2|reflexivity]. }
  assert (Af : match updatedAfter_of opts with
               | Some t => t <? MatchRow.updatedAt r
               | None => true
               end = true <->
               (forall t, updatedAfter_of opts = Some t ->
                          t < MatchRow.updatedAt r)).
  { destruct (updatedAfter_of opts) as [t|].
    - rewrite Z.ltb_lt. split; [intros H t' E; now inversion E; subst|].
      intros H. now apply H.
    - split; [discriminate 2|reflexivity]. }
  rewrite G, Bf, Af. tauto.
Qed.

Lemma kept_rows_filter {B : Boardgame} opts queried :
  kept_rows opts queried = filter (in_memory_filter opts) queried.
Proof.
  unfold kept_rows, in_memory_filter. destruct (isGameover_of opts) as [b|].
  - reflexivity.
  - symmetry. apply forallb_filter_id. now apply forallb_forall.
Qed.



(** The run the witness above is about: of the three sample matches, the
    two of game g1, newest first. *)
Example listMatches_sample_g1 :
  fst (listMatches (B := Demo.game)
         (Some (ListMatchesOpts.mk (Some "g1"%string)
                  (Some (ListMatchesOpts.mk_where None (Some 1000) (Some 50)))))
         Demo.sample_store)
  = Returned ["B"; "A"]%string.
Proof. reflexivity. Qed.

(** ** The game-over filter and rows without metadata                  *)

Lemma distinct_not_in x l :
  existsb (String.eqb x) l = false -> ~ In x l.
Proof.
  intros H Hin. assert (E : existsb (String.eqb x) l = true).
  { apply existsb_exists. exists x. split; [exact Hin | apply String.eqb_refl]. }
  congruence.
Qed.

(** Under the primary key, a row of [matches] is determined by its id. *)
Lemma primary_key_unique d r r' :
  primary_key_ok d = true ->
  In r (matches d) -> In r' (matches d) ->
  MatchRow.id r = MatchRow.id r' -> r = r'.
Proof.
  unfold primary_key_ok. generalize (matches d) as l.
  induction l as [|x l IH]; simpl; [contradiction|].
  rewrite andb_true_iff, negb_true_iff. intros [Hx Hl] Hr Hr' E.
  apply distinct_not_in in Hx.
  destruct Hr as [->|Hr], Hr' as [->|Hr'].
  - reflexivity.
  - exfalso. apply Hx. rewrite E. now apply in_map.
  - exfalso. apply Hx. rewrite <- E. now apply in_map.
  - now apply IH.
Qed.

Lemma gameover_keeps_falsy_metadata {B : Boardgame} b r :
  truthy (MatchRow.metadata r) = false -> gameover_keeps b r = false.
Proof.
  unfold gameover_keeps, gameover_test.
  destruct (MatchRow.metadata r) as [text|]; [|reflexivity].
  now intros ->.
Qed.

(** C1, as the code has it.  When the [isGameover] filter is set, to
    [true] or to [false], a row whose metadata column is NULL (or the empty
    text) is left out of the result of [listMatches]. *)
Theorem listMatches_isGameover_drops_null_metadata
    {B : Boardgame} (s : SQLiteStore) (d : Database)
    (opts : option ListMatchesOpts.t) (b : bool)
    (ids : list string) (s' : SQLiteStore) (r : MatchRow.t) :
  connected s d ->
  primary_key_ok d = true ->
  isGameover_of opts = Some b ->
  listMatches opts s = (Returned ids, s') ->
  In r (matches d) ->
  truthy (MatchRow.metadata r) = false ->
  ~ In (MatchRow.id r) ids.
Proof.
  intros Hc Hpk Hb Hr Hin Hm Hid.
  destruct (listMatches_returned _ Hc Hr) as [-> _].
  apply in_map_iff in Hid. destruct Hid as (r' & E & Hr').
  unfold kept_rows in Hr'. rewrite Hb in Hr'.
  apply filter_In in Hr'. destruct Hr' as [Hq Hk].
  apply (Permutation_in _ (rows_where_perm (where_clause opts) d)) in Hq.
  apply filter_In in Hq. destruct Hq as [Hq _].
  assert (r' = r) by (now apply (primary_key_unique d)). subst r'.
  rewrite (gameover_keeps_falsy_metadata b r Hm) in Hk. discriminate.
Qed.

Lemma listMatches_isGameover_drops_null_metadata_witness :
  ~ In "C"%string ["A"%string].
Proof.
  exact (@listMatches_isGameover_drops_null_metadata Demo.game
           Demo.sample_store Demo.sample_db
           (Some (ListMatchesOpts.mk None
                    (Some (ListMatchesOpts.mk_where (Some false) None None))))
           false ["A"%string] Demo.sample_store
           (Demo.row "C" "g2" (Some "2"%string) (Some "0"%string) None 200 200)
           eq_refl eq_refl eq_refl eq_refl
           (or_intror (or_intror (or_introl eq_refl))) eq_refl).
Defined.

(** C1, as the spec has it, fails: asked for the matches that are not
    over, the store leaves out match C, whose metadata is NULL, although a
    row without metadata carries no game-over mark. *)
Lemma listMatches_isGameover_false_omits_null_metadata :
  let opts :=
    Some (ListMatchesOpts.mk None
            (Some (ListMatchesOpts.mk_where (Some false) None None))) in
  let C := Demo.row "C" "g2" (Some "2"%string) (Some "0"%string) None 200 200 in
  In C (matches Demo.sample_db)
  /\ MatchRow.metadata C = None
  /\ listMatches (B := Demo.game) opts Demo.sample_store
     = (Returned ["A"%string], Demo.sample_store)
  /\ ~ In (MatchRow.id C) ["A"%string].
Proof.
  cbv zeta. split; [simpl; tauto|]. split; [reflexivity|].
  split; [reflexivity|]. simpl. intros [E|[]]. discriminate E.
Qed.

(** ** Computations that only read                                     *)

Create HintDb keeps.

Lemma keeps_ret {S A : Type} (a : A) : keeps (ret (S := S) a).
Proof. intros s. reflexivity. Qed.

Lemma keeps_throw {S A : Type} e : keeps (throw (S := S) (A := A) e).
Proof. intros s. reflexivity. Qed.

Lemma keeps_bind {S A C : Type} (c : M S A) (k : A -> M S C) :
  keeps c -> (forall a, keeps (k a)) -> keeps (bind c k).
Proof.
  intros Hc Hk s. unfold bind. specialize (Hc s).
  destruct (c s) as [[a|e] s1]; simpl in Hc; subst s1; [apply Hk|reflexivity].
Qed.

Lemma keeps_parse {S A : Type} {J : JSON A} text :
  keeps (parse (S := S) (A := A) text).
Proof. intros s. now rewrite parse_run. Qed.

Lemma keeps_map_cb {S A C : Type} (f : A -> M S C) xs :
  (forall x, keeps (f x)) -> keeps (map_cb f xs).
Proof.
  intros Hf. induction xs as [|x xs IH]; simpl.
  - apply keeps_ret.
  - apply keeps_bind; [apply Hf|]. intros y.
    apply keeps_bind; [exact IH|]. intros rest. apply keeps_ret.
Qed.

Lemma keeps_filter_cb {S A : Type} (p : A -> M S bool) xs :
  (forall x, keeps (p x)) -> keeps (filter_cb p xs).
Proof.
  intros Hp. induction xs as [|x xs IH]; simpl.
  - apply keeps_ret.
  - apply keeps_bind; [apply Hp|]. intros keep.
    apply keeps_bind; [exact IH|]. intros rest. apply keeps_ret.
Qed.

Lemma keeps_select_match i : keeps (select_match i).
Proof. intros d. reflexivity. Qed.

Lemma keeps_select_logs i : keeps (select_logs i).
Proof. intros d. reflexivity. Qed.

Lemma keeps_select_matches cond : keeps (select_matches cond).
Proof. intros d. reflexivity. Qed.

Lemma keeps_parse_column {A : Type} {J : JSON A} column :
  keeps (parse_column (A := A) column).
Proof. intros d. now rewrite parse_column_run. Qed.

Lemma keeps_when_enabled {A : Type} enabled (value : M Database A) :
  keeps value -> keeps (when_enabled enabled value).
Proof.
  intros Hv. unfold when_enabled. destruct enabled; [|apply keeps_ret].
  apply keeps_bind; [exact Hv|]. intros v. apply keeps_ret.
Qed.

Lemma keeps_gameover_filter {B : Boardgame} b row :
  keeps (gameover_filter b row).
Proof. intros d. now rewrite gameover_filter_run. Qed.

Lemma keeps_with_db {A : Type} (body : M Database A) :
  keeps body -> keeps (with_db body).
Proof.
  intros Hb s. unfold with_db. destruct (db s) as [d|] eqn:E; [|reflexivity].
  specialize (Hb d). destruct (body d) as [o d']. simpl in *. subst d'.
  symmetry. now apply connected_eta.
Qed.

#[local] Hint Resolve keeps_ret keeps_throw keeps_parse keeps_select_match
  keeps_select_logs keeps_select_matches keeps_parse_column
  keeps_gameover_filter : keeps.

Lemma keeps_stale_check {B : Boardgame} id state :
  keeps (stale_check id state).
Proof.
  unfold stale_check. apply keeps_bind; [apply keeps_select_match|].
  intros [row|]; [|apply keeps_ret].
  destruct (MatchRow.state row) as [text|]; [|apply keeps_ret].
  destruct (truthy (Some text)); [|apply keeps_ret].
  apply keeps_bind; [apply keeps_parse|]. intros ex. apply keeps_ret.
Qed.

(** [fetch] never changes the store. *)
Lemma keeps_fetch {B : Boardgame} matchID opts : keeps (fetch matchID opts).
Proof.
  unfold fetch. apply keeps_with_db.
  apply keeps_bind; [apply keeps_select_match|].
  intros [row|]; [|apply keeps_ret].
  repeat (apply keeps_bind;
          [apply keeps_when_enabled; auto with keeps | intros ?]).
  - apply keeps_bind; [apply keeps_select_logs|]. intros rows.
    apply keeps_map_cb. intros x. apply keeps_parse.
  - apply keeps_ret.
Qed.

(** [listMatches] never changes the store. *)
Lemma keeps_listMatches {B : Boardgame} opts : keeps (listMatches opts).
Proof.
  unfold listMatches. apply keeps_with_db.
  apply keeps_bind; [apply keeps_select_matches|]. intros rows.
  apply keeps_bind; [|intros; apply keeps_ret].
  destruct (isGameover_of opts); [|apply keeps_ret].
  apply keeps_filter_cb. intros x. apply keeps_gameover_filter.
Qed.

(** ** What the writing statements do to the two tables                *)

Lemma set_state_id text now r :
  MatchRow.id (set_state text now r) = MatchRow.id r.
Proof. reflexivity. Qed.

Lemma set_metadata_id text now r :
  MatchRow.id (set_metadata text now r) = MatchRow.id r.
Proof. reflexivity. Qed.

Lemma update_row_id set i r :
  (forall x, MatchRow.id (set x) = MatchRow.id x) ->
  MatchRow.id (update_row set i r) = MatchRow.id r.
Proof. intros H. unfold update_row. destruct (id_is i r); [apply H|reflexivity]. Qed.

(** After an UPDATE that keeps ids, the row found for an id is the update
    of the row found before. *)
Lemma find_update_row set i j l :
  (forall x, MatchRow.id (set x) = MatchRow.id x) ->
  find (id_is j) (map (update_row set i) l)
  = option_map (update_row set i) (find (id_is j) l).
Proof.
  intros H. induction l as [|r l IH]; simpl; [reflexivity|].
  unfold id_is at 1. rewrite (@update_row_id set i r H). fold (id_is j r).
  destruct (id_is j r); [reflexivity | exact IH].
Qed.

Lemma existsb_update_row set i j l :
  (forall x, MatchRow.id (set x) = MatchRow.id x) ->
  existsb (id_is j) (map (update_row set i) l) = existsb (id_is j) l.
Proof.
  intros H. induction l as [|r l IH]; simpl; [reflexivity|].
  unfold id_is at 1. rewrite (@update_row_id set i r H). fold (id_is j r).
  now rewrite IH.
Qed.

(** Inserting log rows leaves [matches] alone, whether or not an INSERT
    fails on the way. *)
Lemma for_of_insert_log_matches {A : Type} (f : A -> string) i entries :
  forall d,
    matches (snd (for_of entries (fun e => insert_log i (f e)) d)) = matches d.
Proof.
  induction entries as [|e entries IH]; intros d; simpl; [reflexivity|].
  unfold bind, insert_log at 1.
  destruct (existsb (id_is i) (matches d)); [|reflexivity].
  rewrite IH. reflexivity.
Qed.

Lemma id_is_true i r : id_is i r = true <-> MatchRow.id r = i.
Proof. unfold id_is. apply String.eqb_eq. Qed.

Lemma find_match_id i d r : find_match i d = Some r -> MatchRow.id r = i.
Proof.
  unfold find_match. intros H. apply find_some in H. now apply id_is_true.
Qed.

(** Deleting the rows of another id does not change the row found. *)
Lemma find_delete_other i j l :
  i <> j ->
  find (id_is i) (filter (fun r => negb (id_is j r)) l) = find (id_is i) l.
Proof.
  intros Hne. induction l as [|r l IH]; simpl; [reflexivity|].
  destruct (id_is i r) eqn:Ei.
  - assert (Ej : id_is j r = false).
    { destruct (id_is j r) eqn:Ej; [|reflexivity].
      apply id_is_true in Ei, Ej. congruence. }
    rewrite Ej. simpl. now rewrite Ei.
  - destruct (id_is j r); simpl; [exact IH|]. now rewrite Ei.
Qed.

(** An INSERT into [matches] does not change the row found for an id that
    is already there. *)
Lemma find_insert_present i l r x :
  find (id_is i) l = Some r -> find (id_is i) (l ++ [x]) = Some r.
Proof.
  induction l as [|y l IH]; simpl; [discriminate|].
  destruct (id_is i y); [trivial | exact IH].
Qed.

(** The transaction of [setState] either leaves the database as it was
    (rolled back) or leaves [matches] with the state and the last update of
    the rows with the id overwritten. *)
Lemma write_transaction_matches {B : Boardgame} id state deltalog now d :
  snd (write_transaction id state deltalog now d) = d
  \/ matches (snd (write_transaction id state deltalog now d))
     = map (update_row (set_state (JSON_stringify state) now) id) (matches d).
Proof.
  unfold write_transaction, transaction.
  destruct (bind _ _ d) as [[u|e] d'] eqn:E; [right|now left].
  simpl. revert E. unfold bind at 1. unfold update_state, update_matches.
  destruct deltalog as [entries|].
  - destruct (0 <? Z.of_nat (List.length entries)).
    + intros E.
      pose proof
        (for_of_insert_log_matches JSON_stringify id entries
           {| matches :=
                map (update_row (set_state (JSON_stringify state) now) id)
                  (matches d);
              logs := logs d;
              sqlite_sequence := sqlite_sequence d |}) as K.
      rewrite E in K. exact K.
    + unfold ret. now inversion 1.
  - unfold ret. now inversion 1.
Qed.

(** [setState] either leaves the database as it was or overwrites the state
    and the last update of the rows with the id. *)
Lemma setState_matches {B : Boardgame} id state deltalog now s d :
  connected s d ->
  exists d',
    connected (snd (setState id state deltalog now s)) d'
    /\ (d' = d
        \/ matches d'
           = map (update_row (set_state (JSON_stringify state) now) id)
               (matches d)).
Proof.
  intros Hc. unfold setState. rewrite (with_db_connected _ Hc). simpl.
  eexists. split; [reflexivity|].
  unfold bind. pose proof (keeps_stale_check id state d) as K.
  destruct (stale_check id state d) as [[stale|e] d1]. 
  - simpl in K. subst d1. destruct stale; [now left|].
    destruct (write_transaction_matches id state deltalog now d) as [ -> | -> ];
      [now left | now right].
  - simpl in K. subst d1. now left.
Qed.

Lemma setMetadata_matches {B : Boardgame} id metadata now s d :
  connected s d ->
  exists d',
    connected (snd (setMetadata id metadata now s)) d'
    /\ matches d'
       = map (update_row (set_metadata (JSON_stringify metadata) now) id)
           (matches d).
Proof.
  intros Hc. unfold setMetadata. rewrite (with_db_connected _ Hc). simpl.
  eexists. split; reflexivity.
Qed.

(** The row of a match after a [setState] (on any id): same id, game name,
    initial state, metadata and creation time. *)
Lemma setState_row {B : Boardgame} i state deltalog now s d id r :
  connected s d ->
  find_match id d = Some r ->
  exists d' r',
    connected (snd (setState i state deltalog now s)) d'
    /\ find_match id d' = Some r'
    /\ MatchRow.id r' = MatchRow.id r
    /\ MatchRow.gameName r' = MatchRow.gameName r
    /\ MatchRow.initialState r' = MatchRow.initialState r
    /\ MatchRow.metadata r' = MatchRow.metadata r
    /\ MatchRow.createdAt r' = MatchRow.createdAt r.
Proof.
  intros Hc Hf.
  destruct (setState_matches i state deltalog now Hc) as (d' & Hc' & [ -> | Hm ]).
  - exists d, r. now repeat split.
  - exists d', (update_row (set_state (JSON_stringify state) now) i r).
    split; [exact Hc'|]. split.
    + unfold find_match in *. rewrite Hm.
      rewrite find_update_row by apply set_state_id. now rewrite Hf.
    + unfold update_row. destruct (id_is i r); now repeat split.
Qed.

(** The row of a match after a [setMetadata] (on any id): same id, game
    name, state, initial state and creation time. *)
Lemma setMetadata_row {B : Boardgame} i metadata now s d id r :
  connected s d ->
  find_match id d = Some r ->
  exists d' r',
    connected (snd (setMetadata i metadata now s)) d'
    /\ find_match id d' = Some r'
    /\ MatchRow.id r' = MatchRow.id r
    /\ MatchRow.gameName r' = MatchRow.gameName r
    /\ MatchRow.state r' = MatchRow.state r
    /\ MatchRow.initialState r' = MatchRow.initialState r
    /\ MatchRow.createdAt r' = MatchRow.createdAt r.
Proof.
  intros Hc Hf.
  destruct (setMetadata_matches i metadata now Hc) as (d' & Hc' & Hm).
  exists d', (update_row (set_metadata (JSON_stringify metadata) now) i r).
  split; [exact Hc'|]. split.
  - unfold find_match in *. rewrite Hm.
    rewrite find_update_row by apply set_metadata_id. now rewrite Hf.
  - unfold update_row. destruct (id_is i r); now repeat split.
Qed.

(** One call that is not a [wipe] of the match keeps the match and its
    initial state. *)
Lemma perform_keeps_initialState {B : Boardgame} c s d id r :
  connected s d ->
  find_match id d = Some r ->
  is_wipe_of id c = false ->
  exists d' r',
    connected (perform c s) d'
    /\ find_match id d' = Some r'
    /\ MatchRow.initialState r' = MatchRow.initialState r.
Proof.
  intros Hc Hf Hw. destruct c as [i o n|i o|i st dl n|i md n|i|o]; simpl.
  - unfold createMatch. rewrite (with_db_connected _ Hc). simpl.
    unfold insert_match. simpl.
    destruct (existsb (id_is i) (matches d)); simpl.
    + exists d, r. now repeat split.
    + eexists. exists r. split; [reflexivity|]. split; [|reflexivity].
      unfold find_match in *. simpl. now apply find_insert_present.
  - rewrite (keeps_fetch i o s). now exists d, r.
  - destruct (setState_row i st dl n id Hc Hf) as (d' & r' & H1 & H2 & H3).
    exists d', r'. tauto.
  - destruct (setMetadata_row i md n id Hc Hf) as (d' & r' & H1 & H2 & H3).
    exists d', r'. tauto.
  - unfold wipe. rewrite (with_db_connected _ Hc). simpl.
    eexists. exists r. split; [reflexivity|]. split; [|reflexivity].
    unfold find_match in *. simpl. rewrite find_delete_other; [exact Hf|].
    simpl in Hw. intros E. subst i. now rewrite String.eqb_refl in Hw.
  - rewrite (keeps_listMatches o s). now exists d, r.
Qed.

(** C8. For a match of a connected store: after any run of calls none of
    which wipes the match, the match is still there with the initial state
    it had; one [setState] (on any id) leaves its id, game name, initial
    state, metadata and creation time as they were; one [setMetadata] (on
    any id) leaves its id, game name, state, initial state and creation
    time as they were. *)
Theorem initialState_never_changes
    {B : Boardgame} (s : SQLiteStore) (d : Database)
    (id : string) (r : MatchRow.t) :
  connected s d ->
  find_match id d = Some r ->
  (forall calls,
      forallb (fun c => negb (is_wipe_of id c)) calls = true ->
      exists d' r',
        connected (perform_all calls s) d'
        /\ find_match id d' = Some r'
        /\ MatchRow.initialState r' = MatchRow.initialState r)
  /\ (forall i state deltalog now,
        exists d' r',
          connected (snd (setState i state deltalog now s)) d'
          /\ find_match id d' = Some r'
          /\ MatchRow.id r' = MatchRow.id r
          /\ MatchRow.gameName r' = MatchRow.gameName r
          /\ MatchRow.initialState r' = MatchRow.initialState r
          /\ MatchRow.metadata r' = MatchRow.metadata r
          /\ MatchRow.createdAt r' = MatchRow.createdAt r)
  /\ (forall i metadata now,
        exists d' r',
          connected (snd (setMetadata i metadata now s)) d'
          /\ find_match id d' = Some r'
          /\ MatchRow.id r' = MatchRow.id r
          /\ MatchRow.gameName r' = MatchRow.gameName r
          /\ MatchRow.state r' = MatchRow.state r
          /\ MatchRow.initialState r' = MatchRow.initialState r
          /\ MatchRow.createdAt r' = MatchRow.createdAt r).
Proof.
  intros Hc Hf. split; [|split].
  - intros calls. revert s d r Hc Hf.
    induction calls as [|c calls IH]; intros s d r Hc Hf Hall.
    + exists d, r. now repeat split.
    + simpl in Hall. apply andb_true_iff in Hall. destruct Hall as [Hw Hall].
      apply negb_true_iff in Hw.
      destruct (@perform_keeps_initialState B c s d id r Hc Hf Hw)
        as (d1 & r1 & Hc1 & Hf1 & Hi1).
      destruct (IH _ _ _ Hc1 Hf1 Hall) as (d' & r' & Hc' & Hf' & Hi').
      exists d', r'. simpl. repeat split; [exact Hc' | exact Hf' | congruence].
  - intros i state deltalog now.
    exact (@setState_row B i state deltalog now s d id r Hc Hf).
  - intros i metadata now.
    exact (@setMetadata_row B i metadata now s d id r Hc Hf).
Qed.

(** ** Appending to the log                                            *)

Lemma max_rowid_bound d l :
  In l (logs d) -> LogRow.id l <= max_rowid d.
Proof.
  unfold max_rowid. generalize (sqlite_sequence d) as base.
  induction (logs d) as [|x xs IH]; simpl; intros base; [contradiction|].
  intros [->|H]; [lia|]. specialize (IH base H). lia.
Qed.

(** One INSERT into [logs] for an existing match: [matches] is untouched
    and the new text comes last in the log of the match. *)
Lemma insert_log_ok i text d :
  existsb (id_is i) (matches d) = true ->
  exists d',
    insert_log i text d = (Returned tt, d')
    /\ matches d' = matches d
    /\ logs_of i d' = logs_of i d ++ [text].
Proof.
  intros He. unfold insert_log. rewrite He. eexists.
  split; [reflexivity|]. split; [reflexivity|].
  unfold logs_of. simpl. rewrite filter_app. simpl.
  unfold matchId_is at 2. simpl. rewrite String.eqb_refl.
  rewrite order_by_last.
  - now rewrite map_app.
  - intros x Hx. apply filter_In in Hx. destruct Hx as [Hx _].
    unfold id_asc. simpl. apply Z.leb_le.
    pose proof (max_rowid_bound d x Hx). unfold next_rowid. lia.
Qed.

(** The loop over a deltalog, for an existing match: every INSERT
    succeeds and the texts come last in the log, in batch order. *)
Lemma for_of_insert_log_ok {A : Type} (f : A -> string) i entries :
  forall d,
    existsb (id_is i) (matches d) = true ->
    exists d',
      for_of entries (fun e => insert_log i (f e)) d = (Returned tt, d')
      /\ matches d' = matches d
      /\ logs_of i d' = logs_of i d ++ map f entries.
Proof.
  induction entries as [|e entries IH]; intros d He; simpl.
  - exists d. rewrite app_nil_r. now repeat split.
  - destruct (insert_log_ok i (f e) d He) as (d1 & H1 & M1 & L1).
    assert (He1 : existsb (id_is i) (matches d1) = true) by now rewrite M1.
    destruct (IH d1 He1) as (d2 & H2 & M2 & L2).
    exists d2. unfold bind. rewrite H1, H2.
    split; [reflexivity|]. split; [congruence|].
    rewrite L2, L1, <- app_assoc. reflexivity.
Qed.

(** The transaction of [setState], for an existing match: it commits, the
    state and the last update of the match are overwritten and the
    deltalog comes last in its log, in batch order. *)
Lemma write_transaction_ok {B : Boardgame} id state deltalog now d :
  existsb (id_is id) (matches d) = true ->
  exists d',
    write_transaction id state deltalog now d = (Returned tt, d')
    /\ matches d'
       = map (update_row (set_state (JSON_stringify state) now) id) (matches d)
    /\ logs_of id d'
       = logs_of id d ++ map JSON_stringify (nullish deltalog []).
Proof.
  intros He. unfold write_transaction, transaction.
  unfold bind at 1. unfold update_state, update_matches.
  set (d1 := {| matches :=
                  map (update_row (set_state (JSON_stringify state) now) id)
                    (matches d);
                logs := logs d;
                sqlite_sequence := sqlite_sequence d |}).
  assert (He1 : existsb (id_is id) (matches d1) = true).
  { simpl. rewrite existsb_update_row; [exact He | apply set_state_id]. }
  destruct deltalog as [entries|]; simpl.
  - destruct entries as [|e entries].
    + simpl. exists d1. rewrite app_nil_r. now repeat split.
    + replace (0 <? Z.of_nat (List.length (e :: entries))) with true
        by (symmetry; apply Z.ltb_lt; simpl; lia).
      destruct (for_of_insert_log_ok JSON_stringify id (e :: entries) d1 He1)
        as (d2 & H2 & M2 & L2).
      rewrite H2. exists d2. split; [reflexivity|]. split; [exact M2|exact L2].
  - exists d1. rewrite app_nil_r. now repeat split.
Qed.

(** ** The stale-write guard                                           *)

Lemma stringify_is_truthy {A : Type} {J : JSON A} {L : JSONLaws A} (a : A) :
  truthy (Some (JSON_stringify a)) = true.
Proof. apply truthy_some, stringify_truthy. Qed.

(** With a stored state that decodes, the check compares the two sequence
    numbers. *)
Lemma stale_check_run {B : Boardgame} id state d r text st0 :
  find_match id d = Some r ->
  MatchRow.state r = Some text ->
  truthy (Some text) = true ->
  JSON_parse text = Some st0 ->
  stale_check id state d = (Returned (_stateID state <=? _stateID st0), d).
Proof.
  intros Hf Hs Ht Hp. unfold stale_check, bind, select_match.
  rewrite Hf, Hs, Ht, parse_run, Hp. reflexivity.
Qed.

(** A call whose sequence number does not exceed the stored one returns
    normally and changes nothing. *)
Lemma setState_stale {B : Boardgame} id state deltalog now s d r text st0 :
  connected s d ->
  find_match id d = Some r ->
  MatchRow.state r = Some text ->
  truthy (Some text) = true ->
  JSON_parse text = Some st0 ->
  _stateID state <= _stateID st0 ->
  setState id state deltalog now s = (Returned tt, s).
Proof.
  intros Hc Hf Hs Ht Hp Hle. unfold setState.
  apply (with_db_unchanged _ Hc). unfold bind.
  rewrite (stale_check_run id state d Hf Hs Ht Hp).
  replace (_stateID state <=? _stateID st0) with true
    by (symmetry; now apply Z.leb_le).
  reflexivity.
Qed.

(** A call whose sequence number exceeds the stored one returns normally,
    stores the new state and appends its deltalog. *)
Lemma setState_accepted {B : Boardgame} {L : BoardgameLaws B}
    id state deltalog now s d r text st0 :
  connected s d ->
  find_match id d = Some r ->
  MatchRow.state r = Some text ->
  truthy (Some text) = true ->
  JSON_parse text = Some st0 ->
  _stateID st0 < _stateID state ->
  exists s' d',
    setState id state deltalog now s = (Returned tt, s')
    /\ connected s' d'
    /\ find_match id d' = Some (set_state (JSON_stringify state) now r)
    /\ logs_of id d'
       = logs_of id d ++ map JSON_stringify (nullish deltalog []).
Proof.
  intros Hc Hf Hs Ht Hp Hlt.
  destruct (write_transaction_ok id state deltalog now d
              (find_match_some_existsb _ _ Hf)) as (d' & Hw & Hm & Hl).
  exists {| db := Some d' |}, d'. split; [|split; [reflexivity|split]].
  - unfold setState. rewrite (with_db_connected _ Hc). unfold bind.
    rewrite (stale_check_run id state d Hf Hs Ht Hp).
    replace (_stateID state <=? _stateID st0) with false
      by (symmetry; apply Z.leb_gt; exact Hlt).
    now rewrite Hw.
  - unfold find_match in *. rewrite Hm.
    rewrite find_update_row by apply set_state_id. rewrite Hf. simpl.
    unfold update_row. apply find_some in Hf. now rewrite (proj2 Hf).
  - exact Hl.
Qed.

Lemma fold_max_base x cur l :
  Z.max x (fold_right Z.max cur l) = fold_right Z.max (Z.max x cur) l.
Proof. induction l as [|a l IH]; simpl; [reflexivity|]. lia. Qed.

Lemma fold_max_ge_base cur l : cur <= fold_right Z.max cur l.
Proof. induction l as [|a l IH]; simpl; lia. Qed.

(** The accepted calls carry the largest sequence number of the run. *)
Lemma max_stateID_accepted {B : Boardgame} calls :
  forall stored,
    max_stateID stored (accepted stored calls) = max_stateID stored calls.
Proof.
  unfold max_stateID.
  induction calls as [|c calls IH]; intros stored; simpl; [reflexivity|].
  destruct (Z.leb_spec (_stateID (SetStateArgs.state c)) stored) as [Hle|Hgt].
  - rewrite IH. pose proof (fold_max_ge_base stored
      (map (fun c => _stateID (SetStateArgs.state c)) calls)). lia.
  - simpl. rewrite !fold_max_base.
    replace (Z.max (_stateID (SetStateArgs.state c)) stored)
      with (_stateID (SetStateArgs.state c)) by lia.
    apply IH.
Qed.

(** Every accepted call has a sequence number above the stored one, and
    these numbers increase along the run. *)
Lemma accepted_above {B : Boardgame} calls :
  forall stored c,
    In c (accepted stored calls) -> stored < _stateID (SetStateArgs.state c).
Proof.
  induction calls as [|c0 calls IH]; intros stored c; simpl; [contradiction|].
  destruct (Z.leb_spec (_stateID (SetStateArgs.state c0)) stored) as [Hle|Hgt].
  - apply IH.
  - intros [->|Hin]; [exact Hgt|]. specialize (IH _ _ Hin). lia.
Qed.

(** A run of [setState] calls on a match whose stored state decodes: every
    call returns normally; afterwards the match holds a state that decodes,
    with the largest sequence number among the stored one and the accepted
    calls, and its log has grown by the deltalogs of the accepted calls, in
    call order. *)
Lemma setState_each_run {B : Boardgame} {L : BoardgameLaws B} id calls :
  forall s d r text st0,
    connected s d ->
    find_match id d = Some r ->
    MatchRow.state r = Some text ->
    truthy (Some text) = true ->
    JSON_parse text = Some st0 ->
    exists s' d' r' text' st',
      setState_each id calls s = (Returned tt, s')
      /\ connected s' d'
      /\ find_match id d' = Some r'
      /\ MatchRow.state r' = Some text'
      /\ truthy (Some text') = true
      /\ JSON_parse text' = Some st'
      /\ _stateID st'
         = max_stateID (_stateID st0) (accepted (_stateID st0) calls)
      /\ logs_of id d'
         = logs_of id d
           ++ map JSON_stringify (batches (accepted (_stateID st0) calls)).
Proof.
  induction calls as [|c calls IH]; intros s d r text st0 Hc Hf Hs Ht Hp.
  - exists s, d, r, text, st0. simpl. rewrite app_nil_r. now repeat split.
  - unfold setState_each. simpl. fold (setState_each id calls).
    destruct (Z.leb_spec (_stateID (SetStateArgs.state c)) (_stateID st0))
      as [Hle|Hgt].
    + unfold bind.
      rewrite (setState_stale id (SetStateArgs.state c)
                 (SetStateArgs.deltalog c) (SetStateArgs.now c)
                 Hc Hf Hs Ht Hp Hle).
      exact (IH s d r text st0 Hc Hf Hs Ht Hp).
    + destruct (setState_accepted id (SetStateArgs.state c)
                  (SetStateArgs.deltalog c) (SetStateArgs.now c)
                  Hc Hf Hs Ht Hp Hgt) as (s1 & d1 & H1 & Hc1 & Hf1 & Hl1).
      destruct (IH s1 d1 _ (JSON_stringify (SetStateArgs.state c))
                  (SetStateArgs.state c) Hc1 Hf1 eq_refl
                  (stringify_is_truthy _) (parse_stringify _))
        as (s' & d' & r' & text' & st' & H2 & Hc' & Hf' & Hs' & Ht' & Hp'
            & Hmax & Hl').
      exists s', d', r', text', st'. unfold bind. rewrite H1.
      split; [exact H2|]. repeat (split; [assumption|]). split.
      * rewrite Hmax. unfold max_stateID. simpl. rewrite fold_max_base.
        replace (Z.max (_stateID (SetStateArgs.state c)) (_stateID st0))
          with (_stateID (SetStateArgs.state c)) by lia.
        reflexivity.
      * rewrite Hl', Hl1. unfold batches. simpl.
        rewrite map_app, <- app_assoc. reflexivity.
Qed.

Lemma accepted_increasing {B : Boardgame} calls :
  forall stored,
    increasing stored calls = true -> accepted stored calls = calls.
Proof.
  induction calls as [|c calls IH]; intros stored; simpl; [reflexivity|].
  rewrite andb_true_iff, Z.ltb_lt. intros [Hlt Hinc].
  replace (_stateID (SetStateArgs.state c) <=? stored) with false
    by (symmetry; apply Z.leb_gt; exact Hlt).
  now rewrite IH.
Qed.

Lemma fold_max_ge_each cur l x : In x l -> x <= fold_right Z.max cur l.
Proof.
  induction l as [|a l IH]; simpl; [contradiction|].
  intros [->|H]; [lia|]. specialize (IH H). lia.
Qed.

Lemma fold_max_attained cur l :
  fold_right Z.max cur l = cur \/ In (fold_right Z.max cur l) l.
Proof.
  induction l as [|a l IH]; simpl; [now left|].
  destruct (Z.max_spec a (fold_right Z.max cur l)) as [[_ ->]|[_ ->]].
  - destruct IH as [->|IH]; [now left | now right; right].
  - right. now left.
Qed.

(** C2. For a match of a connected store whose stored state decodes:
    a [setState] whose sequence number does not exceed the stored one
    returns normally and leaves the whole store (state, timestamps,
    metadata, log) as it was, whatever deltalog comes with it; and every
    run of [setState] calls returns normally and leaves stored the
    sequence number that is the largest among the accepted calls (the
    stored one if none is accepted), which is also the largest of the
    whole run. *)
Theorem setState_stale_noop_and_maximum
    {B : Boardgame} {L : BoardgameLaws B}
    (s : SQLiteStore) (d : Database) (id : string)
    (r : MatchRow.t) (text : string) (st0 : State) :
  connected s d ->
  find_match id d = Some r ->
  MatchRow.state r = Some text ->
  truthy (Some text) = true ->
  JSON_parse text = Some st0 ->
  (forall state deltalog now,
      _stateID state <= _stateID st0 ->
      setState id state deltalog now s = (Returned tt, s))
  /\ (forall calls,
        let applied := accepted (_stateID st0) calls in
        let top := max_stateID (_stateID st0) applied in
        exists s',
          setState_each id calls s = (Returned tt, s')
          /\ stored_stateID id s' = Some top
          /\ (forall c, In c applied -> _stateID (SetStateArgs.state c) <= top)
          /\ (applied <> [] ->
              exists c, In c applied /\ _stateID (SetStateArgs.state c) = top)
          /\ (applied = [] -> top = _stateID st0)
          /\ top = max_stateID (_stateID st0) calls).
Proof.
  intros Hc Hf Hs Ht Hp. split.
  - intros state deltalog now Hle.
    exact (setState_stale id state deltalog now Hc Hf Hs Ht Hp Hle).
  - intros calls applied top.
    destruct (setState_each_run id calls Hc Hf Hs Ht Hp)
      as (s' & d' & r' & text' & st' & Hrun & Hc' & Hf' & Hs' & Ht' & Hp'
          & Hmax & _).
    exists s'. split; [exact Hrun|]. split; [|split; [|split; [|split]]].
    + unfold stored_stateID. unfold connected in Hc'.
      rewrite Hc', Hf', Hs', Hp'. simpl. now rewrite Hmax.
    + intros c Hin. unfold top, max_stateID.
      apply fold_max_ge_each.
      apply (in_map (fun c => _stateID (SetStateArgs.state c))) in Hin.
      exact Hin.
    + intros Hne. unfold top, max_stateID.
      destruct (fold_max_attained (_stateID st0)
                  (map (fun c => _stateID (SetStateArgs.state c)) applied))
        as [E|Hin].
      * exfalso. destruct applied as [|c rest] eqn:Ea; [now apply Hne|].
        assert (Hc0 : In c (accepted (_stateID st0) calls)).
        { fold applied. rewrite Ea. now left. }
        pose proof (accepted_above _ _ _ Hc0) as Hab.
        pose proof (fold_max_ge_each (_stateID st0)
                      (map (fun c => _stateID (SetStateArgs.state c))
                         (c :: rest))
                      (_stateID (SetStateArgs.state c))
                      (or_introl eq_refl)) as Hge.
        rewrite E in Hge. lia.
      * apply in_map_iff in Hin. destruct Hin as (c & E & Hin).
        now exists c.
    + intros E. unfold top. now rewrite E.
    + apply max_stateID_accepted.
Qed.

(** ** Reading the log back                                            *)

Lemma decode_all_app {A : Type} {J : JSON A} l1 l2 (a1 a2 : list A) :
  decode_all l1 = Some a1 -> decode_all l2 = Some a2 ->
  decode_all (l1 ++ l2) = Some (a1 ++ a2).
Proof.
  revert a1. induction l1 as [|t l1 IH]; simpl; intros a1.
  - now inversion 1.
  - destruct (JSON_parse t) as [a|]; [|discriminate].
    destruct (decode_all l1) as [rest|]; [|discriminate].
    simpl. inversion 1; subst. intros H2.
    now rewrite (IH rest eq_refl H2).
Qed.

Lemma decode_all_stringify {A : Type} {J : JSON A} {L : JSONLaws A}
    (entries : list A) :
  decode_all (map JSON_stringify entries) = Some entries.
Proof.
  induction entries as [|e entries IH]; simpl; [reflexivity|].
  now rewrite parse_stringify, IH.
Qed.

(** [fetch] with only the log enabled, on an existing match. *)
Lemma fetch_log_only {B : Boardgame} id s d r :
  connected s d ->
  find_match id d = Some r ->
  fetch id (FetchOpts.mk false true false false) s
  = (decoded
       (option_map
          (fun l => {| FetchResult.state := None;
                       FetchResult.log := Some l;
                       FetchResult.metadata := None;
                       FetchResult.initialState := None |})
          (decode_all (logs_of id d))),
     s).
Proof.
  intros Hc Hf. unfold fetch. apply (with_db_unchanged _ Hc).
  unfold bind, select_match. rewrite Hf. simpl.
  unfold bind, select_logs. rewrite map_cb_parse_run.
  destruct (decode_all (logs_of id d)); reflexivity.
Qed.

(** Any [fetch] with the log enabled that returns, on an existing match,
    holds the decoded log. *)
Lemma fetch_log_enabled {B : Boardgame} id opts s d r res s' :
  connected s d ->
  find_match id d = Some r ->
  FetchOpts.log opts = true ->
  fetch id opts s = (Returned res, s') ->
  Some (FetchResult.log res) = option_map Some (decode_all (logs_of id d)).
Proof.
  intros Hc Hf Hl Hr. unfold fetch in Hr.
  destruct (with_db_inv _ Hc Hr) as (d' & Hb & _). clear Hr. revert Hb.
  unfold bind at 1. unfold select_match. rewrite Hf. rewrite Hl.
  unfold bind at 1.
  pose proof (keeps_when_enabled (FetchOpts.state opts)
                (keeps_parse_column (A := State) (MatchRow.state r)) d) as K1.
  destruct (when_enabled (FetchOpts.state opts) _ d) as [[st|e] d1];
    [|inversion 1]. simpl in K1. subst d1.
  unfold bind at 1.
  pose proof (keeps_when_enabled (FetchOpts.metadata opts)
                (keeps_parse_column (A := MatchData) (MatchRow.metadata r)) d)
    as K2.
  destruct (when_enabled (FetchOpts.metadata opts) _ d) as [[md|e] d2];
    [|inversion 1]. simpl in K2. subst d2.
  unfold bind at 1.
  pose proof (keeps_when_enabled (FetchOpts.initialState opts)
                (keeps_parse_column (A := State) (MatchRow.initialState r)) d)
    as K3.
  destruct (when_enabled (FetchOpts.initialState opts) _ d) as [[ini|e] d3];
    [|inversion 1]. simpl in K3. subst d3.
  simpl. unfold bind, select_logs. rewrite map_cb_parse_run.
  destruct (decode_all (logs_of id d)) as [l|]; simpl; [|inversion 1].
  unfold ret. now inversion 1.
Qed.

(** C4. For a match of a connected store whose stored state and log
    decode: every run of [setState] calls returns normally, and afterwards
    a [fetch] with the log enabled holds the log as it was followed by the
    deltalogs of the accepted calls, in call order and, within a call, in
    batch order; when the sequence numbers of the run increase strictly
    from above the stored one, every call is accepted. *)
Theorem log_read_back_in_call_order
    {B : Boardgame} {L : BoardgameLaws B}
    (s : SQLiteStore) (d : Database) (id : string)
    (r : MatchRow.t) (text : string) (st0 : State) (log0 : list LogEntry) :
  connected s d ->
  find_match id d = Some r ->
  MatchRow.state r = Some text ->
  truthy (Some text) = true ->
  JSON_parse text = Some st0 ->
  decode_all (logs_of id d) = Some log0 ->
  forall calls,
    let applied := accepted (_stateID st0) calls in
    (increasing (_stateID st0) calls = true -> applied = calls)
    /\ exists s',
         setState_each id calls s = (Returned tt, s')
         /\ fetch id (FetchOpts.mk false true false false) s'
            = (Returned {| FetchResult.state := None;
                           FetchResult.log := Some (log0 ++ batches applied);
                           FetchResult.metadata := None;
                           FetchResult.initialState := None |},
               s')
         /\ (forall opts res s'',
               FetchOpts.log opts = true ->
               fetch id opts s' = (Returned res, s'') ->
               FetchResult.log res = Some (log0 ++ batches applied)).
Proof.
  intros Hc Hf Hs Ht Hp Hd calls applied.
  split; [apply accepted_increasing|].
  destruct (setState_each_run id calls Hc Hf Hs Ht Hp)
    as (s' & d' & r' & text' & st' & Hrun & Hc' & Hf' & _ & _ & _ & _ & Hl).
  assert (Hd' : decode_all (logs_of id d') = Some (log0 ++ batches applied)).
  { rewrite Hl. apply decode_all_app; [exact Hd|].
    apply decode_all_stringify. }
  exists s'. split; [exact Hrun|]. split.
  - rewrite (fetch_log_only id Hc' Hf'), Hd'. reflexivity.
  - intros opts res s'' Ho Hr.
    pose proof (fetch_log_enabled id opts Hc' Hf' Ho Hr) as K.
    rewrite Hd' in K. simpl in K. now inversion K.
Qed.

(** ** Creating a match and reading it back                            *)

Lemma find_insert_fresh i l r :
  find (id_is i) l = None -> MatchRow.id r = i ->
  find (id_is i) (l ++ [r]) = Some r.
Proof.
  intros Hn Hi. induction l as [|y l IH]; simpl in *.
  - now rewrite (proj2 (id_is_true i r) Hi).
  - destruct (id_is i y); [discriminate | now apply IH].
Qed.

(** Under the foreign key, a match that does not exist has no log. *)
Lemma logs_of_unknown_id i d :
  foreign_key_ok d = true -> find_match i d = None -> logs_of i d = [].
Proof.
  intros Hfk Hn. unfold logs_of.
  replace (filter (matchId_is i) (logs d)) with (@nil LogRow.t); [reflexivity|].
  symmetry. unfold foreign_key_ok in Hfk. rewrite forallb_forall in Hfk.
  induction (logs d) as [|l ls IH]; simpl; [reflexivity|].
  destruct (matchId_is i l) eqn:E.
  - exfalso. unfold matchId_is in E. apply String.eqb_eq in E.
    specialize (Hfk l (or_introl eq_refl)). rewrite E in Hfk.
    rewrite (find_match_none_existsb _ _ Hn) in Hfk. discriminate.
  - apply IH. intros x Hx. apply Hfk. now right.
Qed.

Lemma parse_column_stringify {A : Type} {J : JSON A} {L : JSONLaws A}
    (a : A) d :
  parse_column (Some (JSON_stringify a)) d = (Returned (Some a), d).
Proof.
  rewrite parse_column_run. unfold decode_column.
  now rewrite stringify_is_truthy, parse_stringify.
Qed.

(** X2. [createMatch] with an id that is taken fails on the primary key
    and changes nothing. *)
Lemma createMatch_taken {B : Boardgame} s d id opts now r :
  connected s d ->
  find_match id d = Some r ->
  createMatch id opts now s
  = (Thrown (SqliteError SQLITE_CONSTRAINT_PRIMARYKEY), s).
Proof.
  intros Hc Hf. unfold createMatch. apply (with_db_unchanged _ Hc).
  unfold insert_match. simpl.
  now rewrite (find_match_some_existsb _ _ Hf).
Qed.

(** C5. On a connected store whose log table respects the foreign key,
    [createMatch] with an id that is not taken returns normally, and a
    [fetch] of that id with every field enabled then returns the initial
    state as state and as initial state, the metadata, and the empty
    log. *)
Theorem createMatch_fetch_roundtrip
    {B : Boardgame} {L : BoardgameLaws B}
    (s : SQLiteStore) (d : Database) (id : string)
    (opts : CreateMatchOpts.t) (now : Z) :
  connected s d ->
  foreign_key_ok d = true ->
  find_match id d = None ->
  exists s',
    createMatch id opts now s = (Returned tt, s')
    /\ fetch id (FetchOpts.mk true true true true) s'
       = (Returned
            {| FetchResult.state := Some (Some (CreateMatchOpts.initialState opts));
               FetchResult.log := Some [];
               FetchResult.metadata := Some (Some (CreateMatchOpts.metadata opts));
               FetchResult.initialState :=
                 Some (Some (CreateMatchOpts.initialState opts)) |},
          s').
Proof.
  intros Hc Hfk Hn.
  set (row := {| MatchRow.id := id;
                 MatchRow.gameName :=
                   nullish (gameName (CreateMatchOpts.metadata opts)) ""%string;
                 MatchRow.state :=
                   Some (JSON_stringify (CreateMatchOpts.initialState opts));
                 MatchRow.initialState :=
                   Some (JSON_stringify (CreateMatchOpts.initialState opts));
                 MatchRow.metadata :=
                   Some (JSON_stringify (CreateMatchOpts.metadata opts));
                 MatchRow.createdAt := now;
                 MatchRow.updatedAt := now |}).
  set (d' := {| matches := matches d ++ [row];
                logs := logs d;
                sqlite_sequence := sqlite_sequence d |}).
  exists {| db := Some d' |}. split.
  - unfold createMatch. rewrite (with_db_connected _ Hc).
    unfold insert_match. simpl.
    now rewrite (find_match_none_existsb _ _ Hn).
  - assert (Hf : find_match id d' = Some row).
    { unfold find_match. simpl. now apply find_insert_fresh. }
    assert (Hl : logs_of id d' = []).
    { change (logs_of id d') with (logs_of id d).
      now apply logs_of_unknown_id. }
    unfold fetch. apply (@with_db_unchanged _ _ _ d'); [reflexivity|].
    unfold bind at 1. unfold select_match. rewrite Hf.
    unfold when_enabled, row.
    cbn [FetchOpts.state FetchOpts.metadata FetchOpts.initialState
         FetchOpts.log MatchRow.state MatchRow.metadata MatchRow.initialState].
    unfold bind, select_logs.
    repeat (rewrite parse_column_stringify; unfold ret; cbv beta iota).
    rewrite Hl. reflexivity.
Qed.

(** ** Two writers                                                     *)










(** ** The theorems above at the sample store                          *)

Lemma setState_stale_noop_and_maximum_witness :
  (forall state deltalog now,
      state <= 4 ->
      setState (B := Demo.game) "B" state deltalog now Demo.sample_store
      = (Returned tt, Demo.sample_store))
  /\ (forall calls : list (@SetStateArgs.t Demo.game),
        let applied := accepted 4 calls in
        let top := max_stateID 4 applied in
        exists s',
          setState_each "B" calls Demo.sample_store = (Returned tt, s')
          /\ stored_stateID (B := Demo.game) "B" s' = Some top
          /\ (forall c, In c applied -> SetStateArgs.state c <= top)
          /\ (applied <> [] ->
              exists c, In c applied /\ SetStateArgs.state c = top)
          /\ (applied = [] -> top = 4)
          /\ top = max_stateID 4 calls).
Proof.
  exact (@setState_stale_noop_and_maximum Demo.game Demo_laws
           Demo.sample_store Demo.sample_db "B" Demo.row_B "4" 4
           eq_refl eq_refl eq_refl eq_refl eq_refl).
Defined.

Lemma log_read_back_in_call_order_witness :
  let calls := Demo.sample_calls in
  let applied := accepted 4 calls in
  (increasing 4 calls = true -> applied = calls)
  /\ exists s',
       setState_each "B" calls Demo.sample_store = (Returned tt, s')
       /\ fetch (B := Demo.game) "B" (FetchOpts.mk false true false false) s'
          = (Returned
               (@FetchResult.mk Demo.game None
                  (Some ([11; 12] ++ batches applied)) None None),
             s')
       /\ (forall opts res s'',
             FetchOpts.log opts = true ->
             fetch (B := Demo.game) "B" opts s' = (Returned res, s'') ->
             FetchResult.log res = Some ([11; 12] ++ batches applied)).
Proof.
  exact (@log_read_back_in_call_order Demo.game Demo_laws
           Demo.sample_store Demo.sample_db "B" Demo.row_B "4" 4 [11; 12]
           eq_refl eq_refl eq_refl eq_refl eq_refl eq_refl Demo.sample_calls).
Defined.

(** A run on match B of the sample store: sequence numbers 5, 3, 6 and 9
    arrive in that order; the second call is stale and its deltalog is
    dropped. *)
Example setState_each_sample :
  let s' := snd (setState_each "B" Demo.sample_calls Demo.sample_store) in
  stored_stateID (B := Demo.game) "B" s' = Some 9
  /\ fst (fetch (B := Demo.game) "B" (FetchOpts.mk false true false false) s')
     = Returned
         (@FetchResult.mk Demo.game None (Some [11; 12; 13; 14; 15])
            None None).
Proof. cbv zeta. split; reflexivity. Qed.

Lemma createMatch_fetch_roundtrip_witness :
  exists s',
    createMatch (B := Demo.game) "D" Demo.create_opts 900 Demo.sample_store
    = (Returned tt, s')
    /\ fetch (B := Demo.game) "D" (FetchOpts.mk true true true true) s'
       = (Returned
            (@FetchResult.mk Demo.game (Some (Some 0)) (Some [])
               (Some (Some {| Demo.name := Some "g3"%string;
                              Demo.over := None |}))
               (Some (Some 0))),
          s').
Proof.
  exact (@createMatch_fetch_roundtrip Demo.game Demo_laws
           Demo.sample_store Demo.sample_db "D" Demo.create_opts 900
           eq_refl eq_refl eq_refl).
Defined.

Lemma initialState_never_changes_witness :
  (forall calls : list (@Call Demo.game),
      forallb (fun c => negb (is_wipe_of "B" c)) calls = true ->
      exists d' r',
        connected (perform_all calls Demo.sample_store) d'
        /\ find_match "B" d' = Some r'
        /\ MatchRow.initialState r' = Some "0"%string)
  /\ (forall i state deltalog now,
        exists d' r',
          connected
            (snd (setState (B := Demo.game) i state deltalog now
                    Demo.sample_store)) d'
          /\ find_match "B" d' = Some r'
          /\ MatchRow.id r' = "B"%string
          /\ MatchRow.gameName r' = "g1"%string
          /\ MatchRow.initialState r' = Some "0"%string
          /\ MatchRow.metadata r' = Some "1:g1"%string
          /\ MatchRow.createdAt r' = 150)
  /\ (forall i metadata now,
        exists d' r',
          connected
            (snd (setMetadata (B := Demo.game) i metadata now
                    Demo.sample_store)) d'
          /\ find_match "B" d' = Some r'
          /\ MatchRow.id r' = "B"%string
          /\ MatchRow.gameName r' = "g1"%string
          /\ MatchRow.state r' = Some "4"%string
          /\ MatchRow.initialState r' = Some "0"%string
          /\ MatchRow.createdAt r' = 150).
Proof.
  exact (@initialState_never_changes Demo.game Demo.sample_store
           Demo.sample_db "B" Demo.row_B eq_refl eq_refl).
Defined.

(** ** The integrity constraints are invariants of the store           *)

Lemma distinct_NoDup l : distinct l = true <-> NoDup l.
Proof.
  induction l as [|x l IH]; simpl.
  - split; [constructor | reflexivity].
  - rewrite andb_true_iff, negb_true_iff, IH. split.
    + intros [Hx Hl]. constructor; [now apply distinct_not_in | exact Hl].
    + intros H. inversion H as [|? ? Hx Hl]; subst. split; [|exact Hl].
      destruct (existsb (String.eqb x) l) eqn:E; [|reflexivity].
      apply existsb_exists in E. destruct E as (y & Hy & E).
      apply String.eqb_eq in E. subst y. contradiction.
Qed.

Lemma existsb_id_is_In i l :
  existsb (id_is i) l = true <-> In i (map MatchRow.id l).
Proof.
  rewrite existsb_exists, in_map_iff. split.
  - intros (r & Hr & E). exists r. split; [now apply id_is_true | exact Hr].
  - intros (r & E & Hr). exists r. split; [exact Hr | now apply id_is_true].
Qed.

Lemma map_id_update_row set i l :
  (forall x, MatchRow.id (set x) = MatchRow.id x) ->
  map MatchRow.id (map (update_row set i) l) = map MatchRow.id l.
Proof.
  intros H. rewrite map_map. apply map_ext. intros r.
  now apply update_row_id.
Qed.

Lemma NoDup_map_filter {A C : Type} (f : A -> C) p l :
  NoDup (map f l) -> NoDup (map f (filter p l)).
Proof.
  induction l as [|x l IH]; simpl; [trivial|].
  intros H. inversion H as [|? ? Hx Hl]; subst.
  destruct (p x); simpl; [|now apply IH].
  constructor; [|now apply IH].
  intros Hin. apply Hx. apply in_map_iff in Hin.
  destruct Hin as (y & E & Hy). apply filter_In in Hy.
  apply in_map_iff. exists y. tauto.
Qed.

Lemma integrity_iff d :
  integrity d = true <->
  NoDup (map MatchRow.id (matches d))
  /\ (forall l, In l (logs d) ->
                In (LogRow.matchId l) (map MatchRow.id (matches d))).
Proof.
  unfold integrity, primary_key_ok, foreign_key_ok.
  rewrite andb_true_iff, distinct_NoDup, forallb_forall.
  split; intros [Hp Hf]; (split; [exact Hp|]); intros l Hl.
  - apply existsb_id_is_In. now apply Hf.
  - apply existsb_id_is_In. now apply Hf.
Qed.

Lemma preserves_keeps {A : Type} P (c : M Database A) :
  keeps c -> preserves P c.
Proof. intros Hk d Hd. now rewrite Hk. Qed.

Lemma preserves_bind {A C : Type} P (c : M Database A) (k : A -> M Database C) :
  preserves P c -> (forall a, preserves P (k a)) -> preserves P (bind c k).
Proof.
  intros Hc Hk d Hd. unfold bind. specialize (Hc d Hd).
  destruct (c d) as [[a|e] d1]; simpl in *; [now apply Hk | exact Hc].
Qed.

Lemma preserves_transaction {A : Type} P (fn : M Database A) :
  preserves P fn -> preserves P (transaction fn).
Proof.
  intros Hf d Hd. unfold transaction. specialize (Hf d Hd).
  destruct (fn d) as [[a|e] d1]; simpl in *; assumption.
Qed.

Lemma preserves_for_of {A : Type} P (body : A -> M Database unit) xs :
  (forall x, preserves P (body x)) -> preserves P (for_of xs body).
Proof.
  intros Hb. induction xs as [|x xs IH]; simpl.
  - intros d Hd. exact Hd.
  - apply preserves_bind; [apply Hb | intros _; exact IH].
Qed.

Lemma sound_insert_match r : preserves sound (insert_match r).
Proof.
  intros d Hd. unfold insert_match.
  destruct (existsb (id_is (MatchRow.id r)) (matches d)) eqn:E;
    [exact Hd|]. simpl.
  unfold sound in *. rewrite integrity_iff in *. simpl.
  destruct Hd as [Hp Hf]. rewrite map_app. simpl. split.
  - apply NoDup_app; [exact Hp | repeat constructor; simpl; tauto |].
    intros x Hx [<-|[]].
    apply existsb_id_is_In in Hx. congruence.
  - intros l Hl. apply in_or_app. left. now apply Hf.
Qed.

Lemma sound_update_matches set i :
  (forall x, MatchRow.id (set x) = MatchRow.id x) ->
  preserves sound (update_matches set i).
Proof.
  intros Hs d Hd. unfold update_matches. simpl.
  unfold sound in *. rewrite integrity_iff in *. simpl.
  now rewrite (@map_id_update_row set i (matches d) Hs).
Qed.

Lemma sound_insert_log i text : preserves sound (insert_log i text).
Proof.
  intros d Hd. unfold insert_log.
  destruct (existsb (id_is i) (matches d)) eqn:E; [|exact Hd]. simpl.
  unfold sound in *. rewrite integrity_iff in *. simpl.
  destruct Hd as [Hp Hf]. split; [exact Hp|].
  intros l Hl. apply in_app_or in Hl. destruct Hl as [Hl|[<-|[]]].
  - now apply Hf.
  - simpl. now apply existsb_id_is_In.
Qed.

Lemma sound_delete_match i : preserves sound (delete_match i).
Proof.
  intros d Hd. unfold delete_match. simpl.
  unfold sound in *. rewrite integrity_iff in *. simpl.
  destruct Hd as [Hp Hf]. split; [now apply NoDup_map_filter|].
  assert (K : forall l, In l (logs d) -> matchId_is i l = false ->
                        In (LogRow.matchId l)
                          (map MatchRow.id
                             (filter (fun r => negb (id_is i r)) (matches d)))).
  { intros l Hl Hne. specialize (Hf l Hl). apply in_map_iff in Hf.
    destruct Hf as (r & E & Hr). apply in_map_iff. exists r.
    split; [exact E|]. apply filter_In. split; [exact Hr|].
    apply negb_true_iff. unfold id_is. rewrite E. exact Hne. }
  destruct (existsb (id_is i) (matches d)) eqn:E.
  - intros l Hl. apply filter_In in Hl. destruct Hl as [Hl Hne].
    apply negb_true_iff in Hne. now apply K.
  - intros l Hl. apply K; [exact Hl|].
    destruct (matchId_is i l) eqn:El; [|reflexivity].
    unfold matchId_is in El. apply String.eqb_eq in El.
    specialize (Hf l Hl). rewrite El in Hf.
    apply existsb_id_is_In in Hf. congruence.
Qed.

Lemma preserves_with_db {A : Type} (body : M Database A) s d :
  preserves sound body ->
  connected s d -> sound d ->
  exists d', connected (snd (with_db body s)) d' /\ sound d'.
Proof.
  intros Hb Hc Hd. rewrite (with_db_connected _ Hc). simpl.
  eexists. split; [reflexivity | now apply Hb].
Qed.

(** X3. Every data method leaves the primary key of [matches] and the
    foreign key of [logs] in force, whether it returns or throws; the
    database [connect] creates has them. *)
Theorem store_keeps_integrity {B : Boardgame} (calls : list Call) :
  integrity empty_database = true
  /\ forall s d,
       connected s d -> integrity d = true ->
       exists d', connected (perform_all calls s) d' /\ integrity d' = true.
Proof.
  split; [reflexivity|].
  induction calls as [|c calls IH]; intros s d Hc Hd; [now exists d|].
  assert (Hstep : exists d1, connected (perform c s) d1 /\ sound d1).
  { destruct c as [i o n|i o|i st dl n|i md n|i|o]; simpl.
    - apply (@preserves_with_db _ _ s d); [apply sound_insert_match | | ];
        assumption.
    - rewrite (keeps_fetch i o s). now exists d.
    - apply (@preserves_with_db _ _ s d); [| assumption | assumption].
      apply preserves_bind;
        [apply preserves_keeps, keeps_stale_check|].
      intros [|]; [apply preserves_keeps, keeps_ret|].
      apply preserves_transaction. apply preserves_bind.
      + apply sound_update_matches, set_state_id.
      + intros _. destruct dl as [entries|];
          [|apply preserves_keeps, keeps_ret].
        destruct (0 <? Z.of_nat (List.length entries));
          [|apply preserves_keeps, keeps_ret].
        apply preserves_for_of. intros e. apply sound_insert_log.
    - apply (@preserves_with_db _ _ s d); [| assumption | assumption].
      apply sound_update_matches, set_metadata_id.
    - apply (@preserves_with_db _ _ s d); [apply sound_delete_match | | ];
        assumption.
    - rewrite (keeps_listMatches o s). now exists d. }
  destruct Hstep as (d1 & Hc1 & Hd1). simpl. exact (IH _ _ Hc1 Hd1).
Qed.

(** ** Before connect                                                  *)

(** X1. On a store that is not connected, every data method throws the
    not-connected error and leaves the store as it is. *)
Lemma not_connected_throws {B : Boardgame} (c : Call) (s : SQLiteStore) :
  db s = None ->
  perform c s = s
  /\ match c with
     | CreateMatch id opts now =>
         fst (createMatch id opts now s) = Thrown NotConnected
     | Fetch matchID opts => fst (fetch matchID opts s) = Thrown NotConnected
     | SetState id state deltalog now =>
         fst (setState id state deltalog now s) = Thrown NotConnected
     | SetMetadata id metadata now =>
         fst (setMetadata id metadata now s) = Thrown NotConnected
     | Wipe id => fst (wipe id s) = Thrown NotConnected
     | ListMatches opts => fst (listMatches opts s) = Thrown NotConnected
     end.
Proof.
  intros Hn.
  destruct c; simpl;
    unfold createMatch, fetch, setState, setMetadata, wipe, listMatches;
    rewrite (with_db_disconnected _ _ Hn); split; reflexivity.
Qed.

(* ================================================================== *)
(** * Further properties of the store                                  *)
(* ================================================================== *)

(** ** What fetch returns                                              *)

Lemma when_enabled_run {A : Type} enabled (value : M Database A) o d :
  value d = (decoded o, d) ->
  when_enabled enabled value d
  = (decoded (if enabled then option_map Some o else Some None), d).
Proof.
  intros Hv. unfold when_enabled. destruct enabled; [|reflexivity].
  unfold bind. rewrite Hv. destruct o; reflexivity.
Qed.

Lemma bind_decoded {S A C : Type} (c : M S A) (k : A -> M S C) o s :
  c s = (decoded o, s) ->
  bind c k s = match o with
               | Some a => k a s
               | None => (Thrown SyntaxError, s)
               end.
Proof. intros Hc. unfold bind. rewrite Hc. destruct o; reflexivity. Qed.

(** [fetch] on a connected store, in one equation. *)
Lemma fetch_run {B : Boardgame} matchID opts s d :
  connected s d ->
  fetch matchID opts s
  = (fetch_returns opts (find_match matchID d) (logs_of matchID d), s).
Proof.
  intros Hc. unfold fetch. apply (with_db_unchanged _ Hc).
  unfold bind at 1. unfold select_match, fetch_returns.
  destruct (find_match matchID d) as [row|]; [|reflexivity].
  unfold fetched_column.
  rewrite (@bind_decoded _ _ _ _ _ _ _
             (@when_enabled_run _ (FetchOpts.state opts) _ _ _
                (@parse_column_run State _ (MatchRow.state row) d))).
  destruct (if FetchOpts.state opts then _ else _) as [st|]; [|reflexivity].
  rewrite (@bind_decoded _ _ _ _ _ _ _
             (@when_enabled_run _ (FetchOpts.metadata opts) _ _ _
                (@parse_column_run MatchData _ (MatchRow.metadata row) d))).
  destruct (if FetchOpts.metadata opts then _ else _) as [md|];
    [|reflexivity].
  rewrite (@bind_decoded _ _ _ _ _ _ _
             (@when_enabled_run _ (FetchOpts.initialState opts) _ _ _
                (@parse_column_run State _ (MatchRow.initialState row) d))).
  destruct (if FetchOpts.initialState opts then _ else _) as [ini|];
    [|reflexivity].
  assert (Hl : bind (select_logs matchID) (fun rows => map_cb parse rows) d
               = (decoded (decode_all (A := LogEntry) (logs_of matchID d)), d)).
  { unfold bind, select_logs. now rewrite map_cb_parse_run. }
  rewrite (@bind_decoded _ _ _ _ _ _ _
             (@when_enabled_run _ (FetchOpts.log opts) _ _ _ Hl)).
  destruct (if FetchOpts.log opts then _ else _) as [lg|]; reflexivity.
Qed.

Lemma decode_column_some {A : Type} {J : JSON A} column (v : option A) :
  decode_column column = Some v -> column_fetched column (Some v).
Proof.
  unfold decode_column, column_fetched. destruct column as [text|].
  - destruct (truthy (Some text)).
    + destruct (JSON_parse text) as [a|] eqn:P; simpl; [|discriminate].
      inversion 1; subst. split; [discriminate|].
      intros text' E _. inversion E; subst. now exists a.
    + inversion 1; subst. split; [reflexivity | discriminate 2].
  - inversion 1; subst. split; [reflexivity | discriminate 1].
Qed.

Lemma decode_column_none {A : Type} {J : JSON A} column :
  decode_column (A := A) column = None <-> undecodable A column.
Proof.
  unfold decode_column, undecodable. split.
  - destruct column as [text|]; [|discriminate].
    destruct (truthy (Some text)) eqn:T; [|discriminate].
    destruct (JSON_parse text) eqn:P; [discriminate|]. intros _.
    now exists text.
  - intros (text & -> & T & P). now rewrite T, P.
Qed.

Lemma fetched_column_inv {A : Type} {J : JSON A} enabled column
    (field : option (option A)) :
  fetched_column enabled column = Some field ->
  if enabled then column_fetched column field else field = None.
Proof.
  unfold fetched_column. destruct enabled.
  - destruct (decode_column column) as [v|] eqn:E; simpl; [|discriminate].
    inversion 1; subst. now apply decode_column_some.
  - now inversion 1.
Qed.

(** X4. When [fetch] returns for an existing match, every enabled field
    holds what its column decodes to: [undefined] for a column that is NULL
    or empty, the decoded value otherwise; and an enabled log holds the
    decoded log texts, oldest first. *)
Theorem fetch_field_values
    {B : Boardgame} (s : SQLiteStore) (d : Database) (matchID : string)
    (opts : FetchOpts.t) (row : MatchRow.t)
    (res : FetchResult.t) (s' : SQLiteStore) :
  connected s d ->
  find_match matchID d = Some row ->
  fetch matchID opts s = (Returned res, s') ->
  (FetchOpts.state opts = true ->
   column_fetched (MatchRow.state row) (FetchResult.state res))
  /\ (FetchOpts.metadata opts = true ->
      column_fetched (MatchRow.metadata row) (FetchResult.metadata res))
  /\ (FetchOpts.initialState opts = true ->
      column_fetched (MatchRow.initialState row)
        (FetchResult.initialState res))
  /\ (FetchOpts.log opts = true ->
      exists entries,
        decode_all (logs_of matchID d) = Some entries
        /\ FetchResult.log res = Some entries).
Proof.
  intros Hc Hf. rewrite (fetch_run matchID opts Hc), Hf.
  unfold fetch_returns.
  destruct (fetched_column (FetchOpts.state opts) _) as [st|] eqn:E1;
    [|inversion 1].
  destruct (fetched_column (FetchOpts.metadata opts) _) as [md|] eqn:E2;
    [|inversion 1].
  destruct (fetched_column (FetchOpts.initialState opts) _) as [ini|] eqn:E3;
    [|inversion 1].
  destruct (if FetchOpts.log opts then _ else _) as [lg|] eqn:E4;
    [|inversion 1].
  inversion 1; subst res s'. simpl.
  apply fetched_column_inv in E1, E2, E3.
  split; [intros K; now rewrite K in E1|].
  split; [intros K; now rewrite K in E2|].
  split; [intros K; now rewrite K in E3|].
  intros K. rewrite K in E4.
  destruct (decode_all (logs_of matchID d)) as [entries|]; [|discriminate].
  simpl in E4. inversion E4; subst. now exists entries.
Qed.

Lemma fetch_field_values_witness :
  (true = true ->
   column_fetched (J := Demo.JSON_Z) (MatchRow.state Demo.row_C)
     (Some (Some 2)))
  /\ (true = true ->
      column_fetched (J := Demo.JSON_metadata) (MatchRow.metadata Demo.row_C)
        (Some None))
  /\ (true = true ->
      column_fetched (J := Demo.JSON_Z) (MatchRow.initialState Demo.row_C)
        (Some (Some 0)))
  /\ (true = true ->
      exists entries,
        decode_all (J := Demo.JSON_Z) (logs_of "C" Demo.sample_db)
        = Some entries
        /\ Some [] = Some entries).
Proof.
  exact (@fetch_field_values Demo.game Demo.sample_store Demo.sample_db "C"
           (FetchOpts.mk true true true true) Demo.row_C
           (@FetchResult.mk Demo.game (Some (Some 2)) (Some [])
              (Some None) (Some (Some 0)))
           Demo.sample_store eq_refl eq_refl eq_refl).
Defined.

(** X5. On a connected store [fetch] throws nothing but the SyntaxError of
    [JSON.parse], and it throws it exactly when the match exists and an
    enabled column that is not empty, or (the log being enabled) a log
    text, does not decode; the store is left as it was. *)
Theorem fetch_throws_only_on_undecodable
    {B : Boardgame} (s : SQLiteStore) (d : Database) (matchID : string)
    (opts : FetchOpts.t) :
  connected s d ->
  (forall e s', fetch matchID opts s = (Thrown e, s') ->
                e = SyntaxError /\ s' = s)
  /\ (fst (fetch matchID opts s) = Thrown SyntaxError <->
      exists row,
        find_match matchID d = Some row
        /\ ((FetchOpts.state opts = true
             /\ undecodable State (MatchRow.state row))
            \/ (FetchOpts.metadata opts = true
                /\ undecodable MatchData (MatchRow.metadata row))
            \/ (FetchOpts.initialState opts = true
                /\ undecodable State (MatchRow.initialState row))
            \/ (FetchOpts.log opts = true
                /\ decode_all (A := LogEntry) (logs_of matchID d) = None))).
Proof.
  intros Hc. rewrite (fetch_run matchID opts Hc). simpl fst.
  assert (Hshape : forall e, fetch_returns opts (find_match matchID d)
                               (logs_of matchID d) = Thrown e ->
                             e = SyntaxError).
  { intros e. unfold fetch_returns.
    destruct (find_match matchID d); [|discriminate].
    destruct (fetched_column (FetchOpts.state opts) _); [|now inversion 1].
    destruct (fetched_column (FetchOpts.metadata opts) _); [|now inversion 1].
    destruct (fetched_column (FetchOpts.initialState opts) _);
      [|now inversion 1].
    destruct (if FetchOpts.log opts then _ else _); now inversion 1. }
  split.
  - intros e s'. inversion 1; subst. split; [now apply Hshape | reflexivity].
  - unfold fetch_returns, fetched_column.
    destruct (find_match matchID d) as [row|].
    + split.
      * intros H. exists row. split; [reflexivity|]. revert H.
        destruct (FetchOpts.state opts), (FetchOpts.metadata opts),
          (FetchOpts.initialState opts), (FetchOpts.log opts);
          destruct (decode_column (A := State) (MatchRow.state row)) eqn:E1;
          destruct (decode_column (A := MatchData) (MatchRow.metadata row))
            eqn:E2;
          destruct (decode_column (A := State) (MatchRow.initialState row))
            eqn:E3;
          destruct (decode_all (A := LogEntry) (logs_of matchID d)) eqn:E4;
          simpl; try discriminate; intros _;
          first
            [ left; split; [reflexivity | now apply decode_column_none]
            | right; left; split;
              [reflexivity | now apply decode_column_none]
            | right; right; left; split;
              [reflexivity | now apply decode_column_none]
            | right; right; right; split; reflexivity ].
      * intros (row' & E & H). inversion E; subst row'. clear E.
        destruct H as [[-> U]|[[-> U]|[[-> U]|[-> U]]]].
        { apply decode_column_none in U. rewrite U. reflexivity. }
        { apply decode_column_none in U. rewrite U. simpl.
          destruct (if FetchOpts.state opts then _ else _); reflexivity. }
        { apply decode_column_none in U. rewrite U. simpl.
          destruct (if FetchOpts.state opts then _ else _); [|reflexivity].
          destruct (if FetchOpts.metadata opts then _ else _); reflexivity. }
        { rewrite U. simpl.
          destruct (if FetchOpts.state opts then _ else _); [|reflexivity].
          destruct (if FetchOpts.metadata opts then _ else _); [|reflexivity].
          destruct (if FetchOpts.initialState opts then _ else _);
            reflexivity. }
    + split; [discriminate|]. intros (row & E & _). discriminate.
Qed.

Lemma fetch_throws_only_on_undecodable_witness :
  (forall e s',
      fetch (B := Demo.game) "X" (FetchOpts.mk true false false false)
        Demo.broken_store = (Thrown e, s') ->
      e = SyntaxError /\ s' = Demo.broken_store)
  /\ (fst (fetch (B := Demo.game) "X" (FetchOpts.mk true false false false)
             Demo.broken_store) = Thrown SyntaxError <->
      exists row,
        find_match "X" Demo.broken_db = Some row
        /\ ((true = true
             /\ undecodable Z (J := Demo.JSON_Z) (MatchRow.state row))
            \/ (false = true
                /\ undecodable Demo.metadata_t (J := Demo.JSON_metadata)
                     (MatchRow.metadata row))
            \/ (false = true
                /\ undecodable Z (J := Demo.JSON_Z)
                     (MatchRow.initialState row))
            \/ (false = true
                /\ decode_all (A := Z) (J := Demo.JSON_Z)
                     (logs_of "X" Demo.broken_db) = None))).
Proof.
  exact (@fetch_throws_only_on_undecodable Demo.game Demo.broken_store
           Demo.broken_db "X" (FetchOpts.mk true false false false) eq_refl).
Defined.

(** The run the witness above is about. *)
Example fetch_broken_state :
  fetch (B := Demo.game) "X" (FetchOpts.mk true false false false)
    Demo.broken_store
  = (Thrown SyntaxError, Demo.broken_store).
Proof. reflexivity. Qed.

(** ** Calls that throw, and calls that only read                      *)

Lemma with_db_thrown_unchanged {A : Type} (body : M Database A) s e s' :
  (forall d e' d', body d = (Thrown e', d') -> d' = d) ->
  with_db body s = (Thrown e, s') -> s' = s.
Proof.
  intros Hb. unfold with_db. destruct (db s) as [d|] eqn:E.
  - destruct (body d) as [[a|e'] d'] eqn:Eb; inversion 1; subst.
    rewrite (Hb _ _ _ Eb). symmetry. now apply connected_eta.
  - now inversion 1.
Qed.

Lemma transaction_thrown_unchanged {A : Type} (fn : M Database A) d e d' :
  transaction fn d = (Thrown e, d') -> d' = d.
Proof.
  unfold transaction. destruct (fn d) as [[a|e'] d1]; now inversion 1.
Qed.

Lemma createMatch_thrown_unchanged {B : Boardgame} id opts now s e s' :
  createMatch id opts now s = (Thrown e, s') -> s' = s.
Proof.
  unfold createMatch. apply with_db_thrown_unchanged.
  intros d e' d'. unfold insert_match.
  destruct (existsb _ (matches d)); now inversion 1.
Qed.

Lemma setState_thrown_unchanged {B : Boardgame} id state deltalog now s e s' :
  setState id state deltalog now s = (Thrown e, s') -> s' = s.
Proof.
  unfold setState. apply with_db_thrown_unchanged.
  intros d e' d'. unfold bind.
  pose proof (keeps_stale_check id state d) as K.
  destruct (stale_check id state d) as [[[|]|e0] d1]; simpl in K; subst d1.
  - inversion 1.
  - unfold write_transaction. apply transaction_thrown_unchanged.
  - now inversion 1.
Qed.

(** X6. A call that throws leaves the store exactly as it was: nothing of
    a failed [createMatch] or [setState] is written; and [fetch] and
    [listMatches] leave the store as it was whether they return or
    throw. *)
Theorem thrown_call_changes_nothing
    {B : Boardgame} (c : Call) (s : SQLiteStore) :
  (forall e, thrown_by c s = Some e -> perform c s = s)
  /\ (forall matchID opts, perform (Fetch matchID opts) s = s)
  /\ (forall opts, perform (ListMatches opts) s = s).
Proof.
  split; [|split].
  - intros e. destruct c as [i o n|i o|i st dl n|i md n|i|o]; simpl.
    + destruct (createMatch i o n s) as [[u|e'] s'] eqn:E; simpl;
        [discriminate|]. intros _. exact (createMatch_thrown_unchanged _ _ _ _ E).
    + intros _. apply keeps_fetch.
    + destruct (setState i st dl n s) as [[u|e'] s'] eqn:E; simpl;
        [discriminate|]. intros _.
      exact (setState_thrown_unchanged _ _ _ _ _ E).
    + destruct (setMetadata i md n s) as [[u|e'] s'] eqn:E; simpl;
        [discriminate|]. intros _. revert E. unfold setMetadata.
      apply with_db_thrown_unchanged. intros d e0 d'.
      unfold update_metadata, update_matches. inversion 1.
    + destruct (wipe i s) as [[u|e'] s'] eqn:E; simpl; [discriminate|].
      intros _. revert E. unfold wipe.
      apply with_db_thrown_unchanged. intros d e0 d'.
      unfold delete_match. inversion 1.
    + intros _. apply keeps_listMatches.
  - intros matchID opts. apply keeps_fetch.
  - intros opts. apply keeps_listMatches.
Qed.

Lemma thrown_call_changes_nothing_witness :
  perform (@CreateMatch Demo.game "A" Demo.create_opts 900) Demo.sample_store
  = Demo.sample_store
  /\ (forall matchID opts,
        perform (@Fetch Demo.game matchID opts) Demo.sample_store
        = Demo.sample_store)
  /\ (forall opts,
        perform (@ListMatches Demo.game opts) Demo.sample_store
        = Demo.sample_store).
Proof.
  destruct (@thrown_call_changes_nothing Demo.game
              (@CreateMatch Demo.game "A" Demo.create_opts 900)
              Demo.sample_store) as (H1 & H2 & H3).
  split; [|split; assumption].
  exact (H1 (SqliteError SQLITE_CONSTRAINT_PRIMARYKEY) eq_refl).
Defined.

(** ** A write to one match leaves the others alone                    *)

Lemma find_insert_other j l r :
  id_is j r = false -> find (id_is j) (l ++ [r]) = find (id_is j) l.
Proof.
  intros H. induction l as [|y l IH]; simpl; [now rewrite H|].
  destruct (id_is j y); [reflexivity | exact IH].
Qed.

Lemma id_is_other i j r : i <> j -> id_is i r = true -> id_is j r = false.
Proof.
  intros Hne Hi. destruct (id_is j r) eqn:Hj; [|reflexivity].
  apply id_is_true in Hi, Hj. congruence.
Qed.

Lemma find_update_other set i j l :
  i <> j ->
  (forall x, MatchRow.id (set x) = MatchRow.id x) ->
  find (id_is j) (map (update_row set i) l) = find (id_is j) l.
Proof.
  intros Hne Hs. rewrite (@find_update_row set i j l Hs).
  destruct (find (id_is j) l) as [r|] eqn:E; [|reflexivity]. simpl.
  apply find_some in E. destruct E as [_ E]. unfold update_row.
  destruct (id_is i r) eqn:Ei; [|reflexivity].
  rewrite (id_is_other r Hne Ei) in E. discriminate.
Qed.

Lemma filter_delete_other i j (l : list LogRow.t) :
  i <> j ->
  filter (matchId_is j) (filter (fun x => negb (matchId_is i x)) l)
  = filter (matchId_is j) l.
Proof.
  intros Hne. induction l as [|x l IH]; simpl; [reflexivity|].
  destruct (matchId_is i x) eqn:Ei; simpl.
  - assert (Ej : matchId_is j x = false).
    { destruct (matchId_is j x) eqn:Ej; [|reflexivity].
      unfold matchId_is in *. apply String.eqb_eq in Ei, Ej. congruence. }
    now rewrite Ej.
  - destruct (matchId_is j x); [now rewrite IH | exact IH].
Qed.

Lemma shows_insert_match j found texts r :
  MatchRow.id r <> j -> preserves (shows j found texts) (insert_match r).
Proof.
  intros Hne d [Hf Hl]. unfold insert_match.
  destruct (existsb _ (matches d)); [now split|]. simpl.
  split; [|exact Hl]. unfold find_match in *. simpl.
  rewrite find_insert_other; [exact Hf|].
  destruct (id_is j r) eqn:E; [|reflexivity].
  apply id_is_true in E. contradiction.
Qed.

Lemma shows_update_matches j found texts set i :
  i <> j ->
  (forall x, MatchRow.id (set x) = MatchRow.id x) ->
  preserves (shows j found texts) (update_matches set i).
Proof.
  intros Hne Hs d [Hf Hl]. unfold update_matches. simpl.
  split; [|exact Hl]. unfold find_match in *. simpl.
  now rewrite (@find_update_other set i j (matches d) Hne Hs).
Qed.

Lemma shows_insert_log j found texts i text :
  i <> j -> preserves (shows j found texts) (insert_log i text).
Proof.
  intros Hne d [Hf Hl]. unfold insert_log.
  destruct (existsb _ (matches d)); [|now split]. simpl.
  split; [exact Hf|]. unfold logs_of in *. simpl.
  rewrite filter_app. simpl.
  replace (matchId_is j _) with false; [now rewrite app_nil_r|].
  symmetry. unfold matchId_is. simpl. apply String.eqb_neq. exact Hne.
Qed.

Lemma shows_delete_match j found texts i :
  i <> j -> preserves (shows j found texts) (delete_match i).
Proof.
  intros Hne d [Hf Hl]. unfold delete_match. simpl. split.
  - unfold find_match in *. simpl. rewrite find_delete_other; [exact Hf|].
    congruence.
  - unfold logs_of in *. simpl.
    destruct (existsb (id_is i) (matches d)); [|exact Hl].
    now rewrite filter_delete_other.
Qed.

Lemma preserves_setState {B : Boardgame} P id state deltalog now :
  (forall set, (forall x, MatchRow.id (set x) = MatchRow.id x) ->
               preserves P (update_matches set id)) ->
  (forall text, preserves P (insert_log id text)) ->
  preserves P
    (bind (stale_check id state)
       (fun stale =>
          if stale then ret tt
          else write_transaction id state deltalog now)).
Proof.
  intros Hu Hi.
  apply preserves_bind; [apply preserves_keeps, keeps_stale_check|].
  intros [|]; [apply preserves_keeps, keeps_ret|].
  apply preserves_transaction. apply preserves_bind.
  - apply Hu, set_state_id.
  - intros _. destruct deltalog as [entries|];
      [|apply preserves_keeps, keeps_ret].
    destruct (0 <? Z.of_nat (List.length entries));
      [|apply preserves_keeps, keeps_ret].
    apply preserves_for_of. intros e. apply Hi.
Qed.

Lemma preserves_with_db_any {A : Type} P (body : M Database A) s d :
  preserves P body ->
  connected s d -> P d ->
  exists d', connected (snd (with_db body s)) d' /\ P d'.
Proof.
  intros Hb Hc Hd. rewrite (with_db_connected _ Hc). simpl.
  eexists. split; [reflexivity | now apply Hb].
Qed.

(** X7. A call addressed to one match leaves every other match as it
    was: the row of the other match and its log read the same after the
    call as before, whether the call returns or throws. *)
Theorem other_matches_untouched
    {B : Boardgame} (c : Call) (s : SQLiteStore) (d : Database) (j : string) :
  connected s d ->
  writes_to j c = false ->
  exists d',
    connected (perform c s) d'
    /\ find_match j d' = find_match j d
    /\ logs_of j d' = logs_of j d.
Proof.
  intros Hc Hw.
  assert (Hd : shows j (find_match j d) (logs_of j d) d) by now split.
  destruct c as [i o n|i o|i st dl n|i md n|i|o]; simpl in *;
    try (apply String.eqb_neq in Hw).
  - apply (@preserves_with_db_any _ _ _ s d); [|assumption|assumption].
    now apply shows_insert_match.
  - rewrite (keeps_fetch i o s). now exists d.
  - apply (@preserves_with_db_any _ _ _ s d); [|assumption|assumption].
    apply preserves_setState.
    + intros set Hs. now apply shows_update_matches.
    + intros text. now apply shows_insert_log.
  - apply (@preserves_with_db_any _ _ _ s d); [|assumption|assumption].
    apply shows_update_matches; [exact Hw | apply set_metadata_id].
  - apply (@preserves_with_db_any _ _ _ s d); [|assumption|assumption].
    now apply shows_delete_match.
  - rewrite (keeps_listMatches o s). now exists d.
Qed.

Lemma other_matches_untouched_witness :
  exists d',
    connected (perform (@Wipe Demo.game "A") Demo.sample_store) d'
    /\ find_match "B" d' = find_match "B" Demo.sample_db
    /\ logs_of "B" d' = logs_of "B" Demo.sample_db.
Proof.
  exact (@other_matches_untouched Demo.game (@Wipe Demo.game "A")
           Demo.sample_store Demo.sample_db "B" eq_refl eq_refl).
Defined.

(** ** wipe                                                            *)

Lemma find_delete_same i l :
  find (id_is i) (filter (fun r => negb (id_is i r)) l) = None.
Proof.
  induction l as [|r l IH]; simpl; [reflexivity|].
  destruct (id_is i r) eqn:E; simpl; [exact IH|]. now rewrite E.
Qed.

Lemma filter_delete_same i (l : list LogRow.t) :
  filter (matchId_is i) (filter (fun x => negb (matchId_is i x)) l) = [].
Proof.
  induction l as [|x l IH]; simpl; [reflexivity|].
  destruct (matchId_is i x) eqn:E; simpl; [exact IH|]. now rewrite E.
Qed.

(** What [wipe] of an existing match leaves: no row and no log for it. *)
Lemma wipe_existing {B : Boardgame} id s d r :
  connected s d ->
  find_match id d = Some r ->
  exists s' d',
    wipe id s = (Returned tt, s')
    /\ connected s' d'
    /\ find_match id d' = None
    /\ logs_of id d' = []
    /\ matches d' = filter (fun r => negb (id_is id r)) (matches d).
Proof.
  intros Hc Hf. unfold wipe. rewrite (with_db_connected _ Hc).
  unfold delete_match. simpl. eexists. eexists.
  split; [reflexivity|]. split; [reflexivity|].
  rewrite (find_match_some_existsb _ _ Hf).
  split; [apply find_delete_same|].
  split; [|reflexivity].
  unfold logs_of. simpl. now rewrite filter_delete_same.
Qed.

(** X8. [wipe] of an existing match returns normally and removes the
    match together with its whole log: afterwards a [fetch] of the id, with
    any selector, returns the empty object, and no log text is left for
    the id. *)
Theorem wipe_removes_match_and_log
    {B : Boardgame} (s : SQLiteStore) (d : Database) (id : string)
    (r : MatchRow.t) :
  connected s d ->
  find_match id d = Some r ->
  exists s' d',
    wipe id s = (Returned tt, s')
    /\ connected s' d'
    /\ find_match id d' = None
    /\ logs_of id d' = []
    /\ (forall opts, fetch id opts s' = (Returned FetchResult.empty, s')).
Proof.
  intros Hc Hf.
  destruct (wipe_existing id Hc Hf) as (s' & d' & Hw & Hc' & Hn & Hl & _).
  exists s', d'. repeat (split; [assumption|]).
  intros opts. now rewrite (fetch_run id opts Hc'), Hn.
Qed.

Lemma wipe_removes_match_and_log_witness :
  exists s' d',
    wipe "B" Demo.sample_store = (Returned tt, s')
    /\ connected s' d'
    /\ find_match "B" d' = None
    /\ logs_of "B" d' = []
    /\ (forall opts,
          fetch (B := Demo.game) "B" opts s'
          = (Returned FetchResult.empty, s')).
Proof.
  exact (@wipe_removes_match_and_log Demo.game Demo.sample_store
           Demo.sample_db "B" Demo.row_B eq_refl eq_refl).
Defined.

(** [createMatch] of an id that is not taken and has no log, followed by a
    [fetch] of everything. *)
Lemma createMatch_then_fetch {B : Boardgame} {L : BoardgameLaws B}
    id opts now s d :
  connected s d ->
  find_match id d = None ->
  logs_of id d = [] ->
  exists s',
    createMatch id opts now s = (Returned tt, s')
    /\ fetch id (FetchOpts.mk true true true true) s'
       = (Returned
            {| FetchResult.state :=
                 Some (Some (CreateMatchOpts.initialState opts));
               FetchResult.log := Some [];
               FetchResult.metadata :=
                 Some (Some (CreateMatchOpts.metadata opts));
               FetchResult.initialState :=
                 Some (Some (CreateMatchOpts.initialState opts)) |},
          s').
Proof.
  intros Hc Hn Hl. unfold createMatch. rewrite (with_db_connected _ Hc).
  unfold insert_match. simpl. rewrite (find_match_none_existsb _ _ Hn). simpl.
  match goal with
  | |- exists s', (_, {| db := Some ?d1 |}) = _ /\ _ => set (d' := d1)
  end.
  exists {| db := Some d' |}. split; [reflexivity|].
  assert (Hc' : connected {| db := Some d' |} d') by reflexivity.
  rewrite (fetch_run id (FetchOpts.mk true true true true) Hc').
  replace (logs_of id d') with (@nil string) by (symmetry; exact Hl).
  unfold find_match, d'. simpl matches.
  rewrite find_insert_fresh; [|exact Hn|reflexivity].
  unfold fetch_returns, fetched_column, decode_column.
  cbn [FetchOpts.state FetchOpts.metadata FetchOpts.initialState
       FetchOpts.log MatchRow.state MatchRow.metadata MatchRow.initialState].
  rewrite !stringify_is_truthy, !parse_stringify. reflexivity.
Qed.

(** X9. After the [wipe] of an existing match its id is free again:
    [createMatch] with the same id returns normally, and a [fetch] of
    everything then shows the new initial state, the new metadata and an
    empty log: nothing of the old match, and none of its log, is left. *)
Theorem wipe_then_createMatch_starts_afresh
    {B : Boardgame} {L : BoardgameLaws B}
    (s : SQLiteStore) (d : Database) (id : string) (r : MatchRow.t)
    (opts : CreateMatchOpts.t) (now : Z) :
  connected s d ->
  find_match id d = Some r ->
  exists s1 s2,
    wipe id s = (Returned tt, s1)
    /\ createMatch id opts now s1 = (Returned tt, s2)
    /\ fetch id (FetchOpts.mk true true true true) s2
       = (Returned
            {| FetchResult.state :=
                 Some (Some (CreateMatchOpts.initialState opts));
               FetchResult.log := Some [];
               FetchResult.metadata :=
                 Some (Some (CreateMatchOpts.metadata opts));
               FetchResult.initialState :=
                 Some (Some (CreateMatchOpts.initialState opts)) |},
          s2).
Proof.
  intros Hc Hf.
  destruct (wipe_existing id Hc Hf) as (s1 & d1 & Hw & Hc1 & Hn & Hl & _).
  destruct (createMatch_then_fetch id opts now Hc1 Hn Hl) as (s2 & H1 & H2).
  now exists s1, s2.
Qed.

Lemma wipe_then_createMatch_starts_afresh_witness :
  exists s1 s2,
    wipe "B" Demo.sample_store = (Returned tt, s1)
    /\ createMatch (B := Demo.game) "B" Demo.create_opts 900 s1
       = (Returned tt, s2)
    /\ fetch (B := Demo.game) "B" (FetchOpts.mk true true true true) s2
       = (Returned
            (@FetchResult.mk Demo.game (Some (Some 0)) (Some [])
               (Some (Some {| Demo.name := Some "g3"%string;
                              Demo.over := None |}))
               (Some (Some 0))),
          s2).
Proof.
  exact (@wipe_then_createMatch_starts_afresh Demo.game Demo_laws
           Demo.sample_store Demo.sample_db "B" Demo.row_B
           Demo.create_opts 900 eq_refl eq_refl).
Defined.

(** ** Writing and reading back                                        *)

(** X10. [setMetadata] on an existing match returns normally, stores the
    metadata and the time of the call, and leaves the log alone: a [fetch]
    of the metadata then returns the metadata written, and a [fetch] that
    does not ask for the metadata returns what it returned before. *)
Theorem setMetadata_fetch_roundtrip
    {B : Boardgame} {L : BoardgameLaws B}
    (s : SQLiteStore) (d : Database) (id : string) (r : MatchRow.t)
    (metadata : MatchData) (now : Z) :
  connected s d ->
  find_match id d = Some r ->
  exists s' d',
    setMetadata id metadata now s = (Returned tt, s')
    /\ connected s' d'
    /\ find_match id d'
       = Some (set_metadata (JSON_stringify metadata) now r)
    /\ logs_of id d' = logs_of id d
    /\ fetch id (FetchOpts.mk false false true false) s'
       = (Returned {| FetchResult.state := None;
                      FetchResult.log := None;
                      FetchResult.metadata := Some (Some metadata);
                      FetchResult.initialState := None |},
          s')
    /\ (forall opts,
          FetchOpts.metadata opts = false ->
          fst (fetch id opts s') = fst (fetch id opts s)).
Proof.
  intros Hc Hf. unfold setMetadata. rewrite (with_db_connected _ Hc).
  unfold update_metadata, update_matches. simpl.
  match goal with
  | |- exists s' d', (_, {| db := Some ?d1 |}) = _ /\ _ => set (d' := d1)
  end.
  exists {| db := Some d' |}, d'.
  assert (Hc' : connected {| db := Some d' |} d') by reflexivity.
  assert (Hf' : find_match id d'
                = Some (set_metadata (JSON_stringify metadata) now r)).
  { unfold find_match, d' in *. simpl.
    rewrite find_update_row by apply set_metadata_id. rewrite Hf. simpl.
    unfold update_row. apply find_some in Hf. now rewrite (proj2 Hf). }
  split; [reflexivity|]. split; [reflexivity|]. split; [exact Hf'|].
  split; [reflexivity|]. split.
  - rewrite (fetch_run id _ Hc'), Hf'.
    unfold fetch_returns, fetched_column, decode_column, set_metadata.
    cbn [FetchOpts.state FetchOpts.metadata FetchOpts.initialState
         FetchOpts.log MatchRow.state MatchRow.metadata
         MatchRow.initialState].
    now rewrite stringify_is_truthy, parse_stringify.
  - intros opts Ho. rewrite (fetch_run id opts Hc'), (fetch_run id opts Hc).
    rewrite Hf', Hf. simpl. unfold fetch_returns. rewrite Ho. reflexivity.
Qed.

Lemma setMetadata_fetch_roundtrip_witness :
  exists s' d',
    setMetadata (B := Demo.game) "A"
      {| Demo.name := Some "g1"%string; Demo.over := Some tt |} 700
      Demo.sample_store = (Returned tt, s')
    /\ connected s' d'
    /\ find_match "A" d'
       = Some (set_metadata "1:g1" 700 Demo.row_A)
    /\ logs_of "A" d' = logs_of "A" Demo.sample_db
    /\ fetch (B := Demo.game) "A" (FetchOpts.mk false false true false) s'
       = (Returned
            (@FetchResult.mk Demo.game None None
               (Some (Some {| Demo.name := Some "g1"%string;
                              Demo.over := Some tt |}))
               None),
          s')
    /\ (forall opts,
          FetchOpts.metadata opts = false ->
          fst (fetch (B := Demo.game) "A" opts s')
          = fst (fetch (B := Demo.game) "A" opts Demo.sample_store)).
Proof.
  exact (@setMetadata_fetch_roundtrip Demo.game Demo_laws Demo.sample_store
           Demo.sample_db "A" Demo.row_A
           {| Demo.name := Some "g1"%string; Demo.over := Some tt |} 700
           eq_refl eq_refl).
Defined.

(** X11. An accepted [setState] (a sequence number above the stored one)
    stores the new state and the time of the call: a [fetch] of the state
    then returns the state written, and a [fetch] that asks neither for
    the state nor for the log returns what it returned before. *)
Theorem setState_fetch_roundtrip
    {B : Boardgame} {L : BoardgameLaws B}
    (s : SQLiteStore) (d : Database) (id : string) (r : MatchRow.t)
    (text : string) (st0 state : State)
    (deltalog : option (list LogEntry)) (now : Z) :
  connected s d ->
  find_match id d = Some r ->
  MatchRow.state r = Some text ->
  truthy (Some text) = true ->
  JSON_parse text = Some st0 ->
  _stateID st0 < _stateID state ->
  exists s' d',
    setState id state deltalog now s = (Returned tt, s')
    /\ connected s' d'
    /\ find_match id d' = Some (set_state (JSON_stringify state) now r)
    /\ fetch id (FetchOpts.mk true false false false) s'
       = (Returned {| FetchResult.state := Some (Some state);
                      FetchResult.log := None;
                      FetchResult.metadata := None;
                      FetchResult.initialState := None |},
          s')
    /\ (forall opts,
          FetchOpts.state opts = false ->
          FetchOpts.log opts = false ->
          fst (fetch id opts s') = fst (fetch id opts s)).
Proof.
  intros Hc Hf Hs Ht Hp Hlt.
  destruct (setState_accepted id state deltalog now Hc Hf Hs Ht Hp Hlt)
    as (s' & d' & Hr & Hc' & Hf' & _).
  exists s', d'. split; [exact Hr|]. split; [exact Hc'|].
  split; [exact Hf'|]. split.
  - rewrite (fetch_run id _ Hc'), Hf'.
    unfold fetch_returns, fetched_column, decode_column, set_state.
    cbn [FetchOpts.state FetchOpts.metadata FetchOpts.initialState
         FetchOpts.log MatchRow.state MatchRow.metadata
         MatchRow.initialState].
    now rewrite stringify_is_truthy, parse_stringify.
  - intros opts Ho1 Ho2.
    rewrite (fetch_run id opts Hc'), (fetch_run id opts Hc).
    rewrite Hf', Hf. simpl. unfold fetch_returns. rewrite Ho1, Ho2.
    reflexivity.
Qed.

Lemma setState_fetch_roundtrip_witness :
  exists s' d',
    setState (B := Demo.game) "B" 7 (Some [13]) 700 Demo.sample_store
    = (Returned tt, s')
    /\ connected s' d'
    /\ find_match "B" d' = Some (set_state "7" 700 Demo.row_B)
    /\ fetch (B := Demo.game) "B" (FetchOpts.mk true false false false) s'
       = (Returned (@FetchResult.mk Demo.game (Some (Some 7)) None None None),
          s')
    /\ (forall opts,
          FetchOpts.state opts = false ->
          FetchOpts.log opts = false ->
          fst (fetch (B := Demo.game) "B" opts s')
          = fst (fetch (B := Demo.game) "B" opts Demo.sample_store)).
Proof.
  exact (@setState_fetch_roundtrip Demo.game Demo_laws Demo.sample_store
           Demo.sample_db "B" Demo.row_B "4" 4 7 (Some [13]) 700
           eq_refl eq_refl eq_refl eq_refl eq_refl eq_refl).
Defined.

(** X12. When the state column of an existing match is NULL or empty,
    [setState] has nothing to compare with: it accepts the write whatever
    its sequence number, stores the state and appends the deltalog. *)
Theorem setState_without_stored_state
    {B : Boardgame}
    (s : SQLiteStore) (d : Database) (id : string) (r : MatchRow.t)
    (state : State) (deltalog : option (list LogEntry)) (now : Z) :
  connected s d ->
  find_match id d = Some r ->
  truthy (MatchRow.state r) = false ->
  exists s' d',
    setState id state deltalog now s = (Returned tt, s')
    /\ connected s' d'
    /\ find_match id d' = Some (set_state (JSON_stringify state) now r)
    /\ logs_of id d'
       = logs_of id d ++ map JSON_stringify (nullish deltalog []).
Proof.
  intros Hc Hf Ht.
  destruct (write_transaction_ok id state deltalog now d
              (find_match_some_existsb _ _ Hf)) as (d' & Hw & Hm & Hl).
  exists {| db := Some d' |}, d'. split; [|split; [reflexivity|split]].
  - unfold setState. rewrite (with_db_connected _ Hc). unfold bind.
    assert (Hs : stale_check id state d = (Returned false, d)).
    { unfold stale_check, bind, select_match. rewrite Hf.
      destruct (MatchRow.state r) as [text|]; [|reflexivity].
      now rewrite Ht. }
    rewrite Hs. now rewrite Hw.
  - unfold find_match in *. rewrite Hm.
    rewrite find_update_row by apply set_state_id. rewrite Hf. simpl.
    unfold update_row. apply find_some in Hf. now rewrite (proj2 Hf).
  - exact Hl.
Qed.

Lemma setState_without_stored_state_witness :
  exists s' d',
    setState (B := Demo.game) "N" (-3) (Some [1; 2]) 700 Demo.broken_store
    = (Returned tt, s')
    /\ connected s' d'
    /\ find_match "N" d' = Some (set_state "-3" 700 Demo.row_N)
    /\ logs_of "N" d'
       = logs_of "N" Demo.broken_db ++ ["1"; "2"]%string.
Proof.
  exact (@setState_without_stored_state Demo.game Demo.broken_store
           Demo.broken_db "N" Demo.row_N (-3) (Some [1; 2]) 700
           eq_refl eq_refl eq_refl).
Defined.

(** X13. When the stored state of a match is not empty and does not
    decode, [setState] throws the SyntaxError of [JSON.parse] before it
    writes anything: the store is left as it was. *)
Theorem setState_undecodable_stored_state
    {B : Boardgame}
    (s : SQLiteStore) (d : Database) (id : string) (r : MatchRow.t)
    (text : string) (state : State)
    (deltalog : option (list LogEntry)) (now : Z) :
  connected s d ->
  find_match id d = Some r ->
  MatchRow.state r = Some text ->
  truthy (Some text) = true ->
  JSON_parse (A := State) text = None ->
  setState id state deltalog now s = (Thrown SyntaxError, s).
Proof.
  intros Hc Hf Hs Ht Hp. unfold setState. apply (with_db_unchanged _ Hc).
  unfold bind, stale_check, bind, select_match.
  now rewrite Hf, Hs, Ht, parse_run, Hp.
Qed.

Lemma setState_undecodable_stored_state_witness :
  setState (B := Demo.game) "X" 5 (Some [1]) 700 Demo.broken_store
  = (Thrown SyntaxError, Demo.broken_store).
Proof.
  exact (@setState_undecodable_stored_state Demo.game Demo.broken_store
           Demo.broken_db "X" Demo.row_X "oops" 5 (Some [1]) 700
           eq_refl eq_refl eq_refl eq_refl eq_refl).
Defined.

(** ** More on listMatches                                             *)

Lemma listMatches_run {B : Boardgame} opts s d :
  connected s d ->
  listMatches opts s
  = (match isGameover_of opts with
     | Some b =>
         decoded
           (option_map (map MatchRow.id)
              (filter_decoding (gameover_test b)
                 (rows_where (where_clause opts) d)))
     | None => Returned (map MatchRow.id (rows_where (where_clause opts) d))
     end,
     s).
Proof.
  intros Hc. unfold listMatches. apply (with_db_unchanged _ Hc).
  unfold bind at 1. unfold select_matches.
  destruct (isGameover_of opts) as [b|]; [|reflexivity].
  unfold bind. rewrite (@filter_cb_run _ _ _ _ (gameover_filter_run b)).
  destruct (filter_decoding _ _); reflexivity.
Qed.

Lemma in_rows_where cond d r :
  In r (rows_where cond d) <-> In r (matches d) /\ cond r = true.
Proof.
  rewrite <- filter_In. split; apply Permutation_in;
    [|symmetry]; apply rows_where_perm.
Qed.

(** X14. [listMatches] with a game name that is not empty returns only
    ids of matches stored under that name, and, when nothing else is
    filtered, the id of every such match; with the empty string as game
    name it returns what it returns without a game name. *)
Theorem listMatches_gameName_filter
    {B : Boardgame} (s : SQLiteStore) (d : Database) :
  connected s d ->
  (forall g wh ids s',
      g <> ""%string ->
      listMatches (Some (ListMatchesOpts.mk (Some g) wh)) s
      = (Returned ids, s') ->
      forall i, In i ids ->
                exists r, In r (matches d) /\ MatchRow.id r = i
                          /\ MatchRow.gameName r = g)
  /\ (forall g r,
        g <> ""%string ->
        In r (matches d) -> MatchRow.gameName r = g ->
        exists ids,
          listMatches (Some (ListMatchesOpts.mk (Some g) None)) s
          = (Returned ids, s)
          /\ In (MatchRow.id r) ids)
  /\ (forall wh,
        listMatches (Some (ListMatchesOpts.mk (Some ""%string) wh)) s
        = listMatches (Some (ListMatchesOpts.mk None wh)) s).
Proof.
  intros Hc. split; [|split].
  - intros g wh ids s' Hg Hr i Hi.
    destruct (listMatches_returned _ Hc Hr) as [-> _].
    apply in_map_iff in Hi. destruct Hi as (r & E & Hk).
    rewrite kept_rows_filter in Hk. apply filter_In in Hk.
    destruct Hk as [Hq _]. apply in_rows_where in Hq.
    destruct Hq as [Hin Hw]. exists r. split; [exact Hin|].
    split; [exact E|]. apply where_clause_spec in Hw.
    destruct Hw as [Hn _]. now apply (Hn g).
  - intros g r Hg Hin Hn. eexists.
    rewrite (listMatches_run _ Hc). simpl. split; [reflexivity|].
    apply in_map. apply in_rows_where. split; [exact Hin|].
    apply where_clause_spec. split; [|split].
    + simpl. intros g' E _. inversion E; subst. reflexivity.
    + discriminate 1.
    + discriminate 1.
  - intros wh. reflexivity.
Qed.

Lemma listMatches_gameName_filter_witness :
  (forall g wh ids s',
      g <> ""%string ->
      listMatches (B := Demo.game) (Some (ListMatchesOpts.mk (Some g) wh))
        Demo.sample_store = (Returned ids, s') ->
      forall i, In i ids ->
                exists r, In r (matches Demo.sample_db) /\ MatchRow.id r = i
                          /\ MatchRow.gameName r = g)
  /\ (forall g r,
        g <> ""%string ->
        In r (matches Demo.sample_db) -> MatchRow.gameName r = g ->
        exists ids,
          listMatches (B := Demo.game)
            (Some (ListMatchesOpts.mk (Some g) None)) Demo.sample_store
          = (Returned ids, Demo.sample_store)
          /\ In (MatchRow.id r) ids)
  /\ (forall wh,
        listMatches (B := Demo.game)
          (Some (ListMatchesOpts.mk (Some ""%string) wh)) Demo.sample_store
        = listMatches (B := Demo.game)
            (Some (ListMatchesOpts.mk None wh)) Demo.sample_store).
Proof.
  exact (@listMatches_gameName_filter Demo.game Demo.sample_store
           Demo.sample_db eq_refl).
Defined.

Lemma gameover_keeps_decoded {B : Boardgame} b r text (md : MatchData) :
  MatchRow.metadata r = Some text ->
  truthy (Some text) = true ->
  JSON_parse text = Some md ->
  gameover_keeps b r
  = if b then match gameover md with Some _ => true | None => false end
    else match gameover md with Some _ => false | None => true end.
Proof.
  intros Hm Ht Hp. unfold gameover_keeps, gameover_test.
  rewrite Hm, Ht, Hp. simpl. destruct b, (gameover md); reflexivity.
Qed.

(** X15. With the [isGameover] filter set to [b], a match that passes
    the other filters and whose metadata decodes is listed exactly when
    the presence of the [gameover] field in its metadata is [b]: present
    for [true], absent for [false]. *)
Theorem listMatches_isGameover_by_presence
    {B : Boardgame} (s : SQLiteStore) (d : Database)
    (opts : option ListMatchesOpts.t) (b : bool)
    (ids : list string) (s' : SQLiteStore)
    (r : MatchRow.t) (text : string) (md : MatchData) :
  connected s d ->
  primary_key_ok d = true ->
  isGameover_of opts = Some b ->
  listMatches opts s = (Returned ids, s') ->
  In r (matches d) ->
  where_clause opts r = true ->
  MatchRow.metadata r = Some text ->
  truthy (Some text) = true ->
  JSON_parse text = Some md ->
  (In (MatchRow.id r) ids <->
   if b then gameover md <> None else gameover md = None).
Proof.
  intros Hc Hpk Hb Hr Hin Hw Hm Ht Hp.
  destruct (listMatches_returned _ Hc Hr) as [-> _].
  unfold kept_rows. rewrite Hb.
  pose proof (gameover_keeps_decoded b r Hm Ht Hp) as Hk.
  assert (Hq : In r (rows_where (where_clause opts) d))
    by (apply in_rows_where; now split).
  assert (Hiff : In (MatchRow.id r)
                   (map MatchRow.id
                      (filter (gameover_keeps b)
                         (rows_where (where_clause opts) d)))
                 <-> gameover_keeps b r = true).
  { split.
    - intros Hi. apply in_map_iff in Hi. destruct Hi as (r' & E & Hk').
      apply filter_In in Hk'. destruct Hk' as [Hq' Hk'].
      apply in_rows_where in Hq'. destruct Hq' as [Hin' _].
      assert (r' = r) by (now apply (primary_key_unique d)). now subst r'.
    - intros Hk'. apply in_map. apply filter_In. now split. }
  rewrite Hiff, Hk.
  destruct b, (gameover md); split; intros; congruence.
Qed.

Lemma listMatches_isGameover_by_presence_witness :
  In (MatchRow.id Demo.row_B) ["B"%string] <->
  Demo.over {| Demo.name := Some "g1"%string; Demo.over := Some tt |} <> None.
Proof.
  exact (@listMatches_isGameover_by_presence Demo.game Demo.sample_store
           Demo.sample_db
           (Some (ListMatchesOpts.mk None
                    (Some (ListMatchesOpts.mk_where (Some true) None None))))
           true ["B"%string] Demo.sample_store Demo.row_B "1:g1"
           {| Demo.name := Some "g1"%string; Demo.over := Some tt |}
           eq_refl eq_refl eq_refl eq_refl
           (or_intror (or_introl eq_refl)) eq_refl eq_refl eq_refl eq_refl).
Defined.





(** The run the witness above is about: match X of the broken database
    holds metadata that does not decode. *)
Example listMatches_broken_metadata :
  listMatches (B := Demo.game)
    (Some (ListMatchesOpts.mk None
             (Some (ListMatchesOpts.mk_where (Some false) None None))))
    Demo.broken_store
  = (Thrown SyntaxError, Demo.broken_store).
Proof. reflexivity. Qed.

(** ** The match written last is listed first                          *)

Lemma where_clause_none {B : Boardgame} r : where_clause None r = true.
Proof. reflexivity. Qed.

(** If every row with id [i] was last updated at [now], some row has id
    [i], and every other row was last updated before [now], the unfiltered
    listing starts with [i]. *)
Lemma newest_is_listed_first {B : Boardgame} i now d :
  (exists r, In r (matches d) /\ MatchRow.id r = i
             /\ MatchRow.updatedAt r = now) ->
  (forall y, In y (matches d) ->
             MatchRow.id y = i \/ MatchRow.updatedAt y < now) ->
  exists rest,
    map MatchRow.id (rows_where (where_clause None) d) = i :: rest.
Proof.
  intros (r & Hr & Hi & Hu) Hall.
  pose proof (rows_where_sorted (where_clause None) d) as Hs.
  assert (Hq : In r (rows_where (where_clause None) d))
    by (apply in_rows_where; now split).
  destruct (rows_where (where_clause None) d) as [|h t] eqn:E;
    [contradiction|].
  assert (Hh : In h (matches d)).
  { apply (proj1 (in_rows_where (where_clause None) d h)).
    rewrite E. now left. }
  exists (map MatchRow.id t). simpl. f_equal.
  destruct (Hall h Hh) as [K|K]; [exact K|].
  exfalso. destruct Hq as [->|Hq]; [lia|].
  inversion Hs as [|? ? _ Hf]; subst. rewrite Forall_forall in Hf.
  specialize (Hf r Hq). unfold newer_or_same in Hf. lia.
Qed.

Lemma updated_rows_newest set i now d r :
  (forall x, MatchRow.id (set x) = MatchRow.id x) ->
  (forall x, MatchRow.updatedAt (set x) = now) ->
  find_match i d = Some r ->
  forallb (fun x => MatchRow.updatedAt x <? now) (matches d) = true ->
  (exists r', In r' (map (update_row set i) (matches d))
              /\ MatchRow.id r' = i /\ MatchRow.updatedAt r' = now)
  /\ (forall y, In y (map (update_row set i) (matches d)) ->
                MatchRow.id y = i \/ MatchRow.updatedAt y < now).
Proof.
  intros Hid Hup Hf Hall. unfold find_match in Hf. apply find_some in Hf.
  destruct Hf as [Hin Hi]. rewrite forallb_forall in Hall. split.
  - exists (set r). split; [|split].
    + apply in_map_iff. exists r. split; [|exact Hin].
      unfold update_row. now rewrite Hi.
    + rewrite Hid. now apply id_is_true.
    + apply Hup.
  - intros y Hy. apply in_map_iff in Hy. destruct Hy as (x & <- & Hx).
    unfold update_row. destruct (id_is i x) eqn:E.
    + left. rewrite Hid. now apply id_is_true.
    + right. apply Z.ltb_lt. now apply Hall.
Qed.

(** X17. A write at a time later than every last update puts its match
    at the head of the unfiltered listing: after [setMetadata], and after
    an accepted [setState], [listMatches()] returns the id of the match
    first. *)
Theorem updated_match_listed_first
    {B : Boardgame} {L : BoardgameLaws B}
    (s : SQLiteStore) (d : Database) (id : string) (r : MatchRow.t)
    (now : Z) :
  connected s d ->
  find_match id d = Some r ->
  forallb (fun x => MatchRow.updatedAt x <? now) (matches d) = true ->
  (forall metadata,
      exists rest,
        fst (listMatches None (snd (setMetadata id metadata now s)))
        = Returned (id :: rest))
  /\ (forall state deltalog text st0,
        MatchRow.state r = Some text ->
        truthy (Some text) = true ->
        JSON_parse text = Some st0 ->
        _stateID st0 < _stateID state ->
        exists rest,
          fst (listMatches None (snd (setState id state deltalog now s)))
          = Returned (id :: rest)).
Proof.
  intros Hc Hf Hall. split.
  - intros metadata.
    destruct (setMetadata_matches id metadata now Hc) as (d' & Hc' & Hm).
    destruct (@updated_rows_newest
                (set_metadata (JSON_stringify metadata) now) id now d r
                (set_metadata_id _ _) (fun _ => eq_refl) Hf Hall) as [H1 H2].
    rewrite <- Hm in H1, H2.
    destruct (@newest_is_listed_first B id now d' H1 H2) as (rest & E).
    exists rest. rewrite (listMatches_run None Hc'). simpl. now rewrite E.
  - intros state deltalog text st0 Hs Ht Hp Hlt.
    destruct (setState_matches id state deltalog now Hc) as (d' & Hc' & Hm).
    destruct (setState_accepted id state deltalog now Hc Hf Hs Ht Hp Hlt)
      as (s1 & d1 & Hr & Hc1 & Hf1 & _).
    rewrite Hr in Hc'. simpl in Hc'.
    assert (d1 = d') by (unfold connected in *; congruence). subst d1.
    destruct Hm as [->|Hm].
    { exfalso. rewrite Hf in Hf1. inversion Hf1 as [K].
      assert (Hu : MatchRow.updatedAt r = now) by (rewrite K at 1; reflexivity).
      unfold find_match in Hf. apply find_some in Hf.
      rewrite forallb_forall in Hall.
      specialize (Hall r (proj1 Hf)). apply Z.ltb_lt in Hall. lia. }
    destruct (@updated_rows_newest
                (set_state (JSON_stringify state) now) id now d r
                (set_state_id _ _) (fun _ => eq_refl) Hf Hall) as [H1 H2].
    rewrite <- Hm in H1, H2.
    destruct (@newest_is_listed_first B id now d' H1 H2) as (rest & E).
    exists rest. rewrite Hr. simpl snd.
    rewrite (listMatches_run None Hc1). simpl. now rewrite E.
Qed.

Lemma updated_match_listed_first_witness :
  (forall metadata,
      exists rest,
        fst (listMatches (B := Demo.game) None
               (snd (setMetadata (B := Demo.game) "A" metadata 700
                       Demo.sample_store)))
        = Returned ("A"%string :: rest))
  /\ (forall state deltalog text st0,
        MatchRow.state Demo.row_A = Some text ->
        truthy (Some text) = true ->
        JSON_parse (JSON := Demo.JSON_Z) text = Some st0 ->
        st0 < state ->
        exists rest,
          fst (listMatches (B := Demo.game) None
                 (snd (setState (B := Demo.game) "A" state deltalog 700
                         Demo.sample_store)))
          = Returned ("A"%string :: rest)).
Proof.
  exact (@updated_match_listed_first Demo.game Demo_laws Demo.sample_store
           Demo.sample_db "A" Demo.row_A 700 eq_refl eq_refl eq_refl).
Defined.

(** ** The key of the log table                                        *)

Lemma distinct_rowids_NoDup l : distinct_rowids l = true <-> NoDup l.
Proof.
  induction l as [|x l IH]; simpl.
  - split; [constructor | reflexivity].
  - rewrite andb_true_iff, negb_true_iff, IH. split.
    + intros [Hx Hl]. constructor; [|exact Hl]. intros Hin.
      assert (E : existsb (Z.eqb x) l = true).
      { apply existsb_exists. exists x. split; [exact Hin | apply Z.eqb_refl]. }
      congruence.
    + intros H. inversion H as [|? ? Hx Hl]; subst. split; [|exact Hl].
      destruct (existsb (Z.eqb x) l) eqn:E; [|reflexivity].
      apply existsb_exists in E. destruct E as (y & Hy & E).
      apply Z.eqb_eq in E. subst y. contradiction.
Qed.

Lemma log_key_ok_iff d :
  log_key_ok d = true <->
  NoDup (map LogRow.id (logs d))
  /\ (forall l, In l (logs d) -> LogRow.id l <= sqlite_sequence d).
Proof.
  unfold log_key_ok.
  rewrite andb_true_iff, distinct_rowids_NoDup, forallb_forall.
  split; intros [H1 H2]; (split; [exact H1|]); intros l Hl;
    specialize (H2 l Hl); [now apply Z.leb_le | now apply Z.leb_le].
Qed.

Lemma max_rowid_bounded d :
  (forall l, In l (logs d) -> LogRow.id l <= sqlite_sequence d) ->
  max_rowid d = sqlite_sequence d.
Proof.
  unfold max_rowid. generalize (sqlite_sequence d) as n.
  induction (logs d) as [|x xs IH]; intros n H; simpl; [reflexivity|].
  rewrite IH by (intros l Hl; apply H; now right).
  specialize (H x (or_introl eq_refl)). lia.
Qed.

Lemma rowids_fresh_insert_match old n r :
  preserves (rowids_fresh old n) (insert_match r).
Proof.
  intros d H. unfold insert_match.
  destruct (existsb _ (matches d)); exact H.
Qed.

Lemma rowids_fresh_update_matches old n set i :
  preserves (rowids_fresh old n) (update_matches set i).
Proof. intros d H. exact H. Qed.

Lemma rowids_fresh_insert_log old n i text :
  preserves (rowids_fresh old n) (insert_log i text).
Proof.
  intros d (Hk & Hn & Ho). unfold insert_log.
  destruct (existsb _ (matches d)); [|now repeat split]. simpl.
  apply log_key_ok_iff in Hk. destruct Hk as [Hnd Hb].
  assert (Hnext : next_rowid d = 1 + sqlite_sequence d).
  { unfold next_rowid. now rewrite (max_rowid_bounded d Hb). }
  unfold rowids_fresh. rewrite log_key_ok_iff. simpl.
  generalize dependent (next_rowid d). intros k Hnext.
  split; [split|split].
  - rewrite map_app. simpl. apply NoDup_app; [exact Hnd| |].
    + repeat constructor. simpl. tauto.
    + intros x Hx [<-|[]]. apply in_map_iff in Hx.
      destruct Hx as (l & E & Hl). specialize (Hb l Hl). lia.
  - intros l Hl. apply in_app_or in Hl. destruct Hl as [Hl|[<-|[]]].
    + specialize (Hb l Hl). lia.
    + simpl. lia.
  - lia.
  - intros l Hl. apply in_app_or in Hl. destruct Hl as [Hl|[<-|[]]].
    + now apply Ho.
    + right. simpl. lia.
Qed.

Lemma rowids_fresh_delete_match old n i :
  preserves (rowids_fresh old n) (delete_match i).
Proof.
  intros d (Hk & Hn & Ho). unfold delete_match. simpl.
  destruct (existsb (id_is i) (matches d)); [|now repeat split].
  apply log_key_ok_iff in Hk. destruct Hk as [Hnd Hb].
  unfold rowids_fresh. rewrite log_key_ok_iff. simpl.
  split; [split|split].
  - now apply NoDup_map_filter.
  - intros l Hl. apply filter_In in Hl. now apply Hb.
  - exact Hn.
  - intros l Hl. apply filter_In in Hl. now apply Ho.
Qed.

(** A property the four writing statements keep is kept by every call. *)
Lemma perform_preserves {B : Boardgame} (P : Database -> Prop) c s d :
  (forall r, preserves P (insert_match r)) ->
  (forall set i, (forall x, MatchRow.id (set x) = MatchRow.id x) ->
                 preserves P (update_matches set i)) ->
  (forall i text, preserves P (insert_log i text)) ->
  (forall i, preserves P (delete_match i)) ->
  connected s d -> P d ->
  exists d', connected (perform c s) d' /\ P d'.
Proof.
  intros H1 H2 H3 H4 Hc Hd.
  destruct c as [i o n|i o|i st dl n|i md n|i|o]; simpl.
  - apply (@preserves_with_db_any _ _ _ s d); [apply H1 | | ]; assumption.
  - rewrite (keeps_fetch i o s). now exists d.
  - apply (@preserves_with_db_any _ _ _ s d); [| assumption | assumption].
    apply preserves_setState; [intros set Hs; now apply H2 | apply H3].
  - apply (@preserves_with_db_any _ _ _ s d); [| assumption | assumption].
    apply H2, set_metadata_id.
  - apply (@preserves_with_db_any _ _ _ s d); [apply H4 | | ]; assumption.
  - rewrite (keeps_listMatches o s). now exists d.
Qed.

(** X18. Log rowids are never reused.  If the key of [logs] is in force
    (no rowid twice, none above the counter), then after any run of calls
    it still is, the counter has not gone down, and every log row is
    either a row that was there before the run or has a rowid above every
    rowid handed out before the run, those of wiped matches included. *)
Theorem log_rowids_never_reused
    {B : Boardgame} (calls : list Call) (s : SQLiteStore) (d : Database) :
  connected s d ->
  log_key_ok d = true ->
  exists d',
    connected (perform_all calls s) d'
    /\ log_key_ok d' = true
    /\ sqlite_sequence d <= sqlite_sequence d'
    /\ (forall l, In l (logs d') ->
                  In l (logs d) \/ sqlite_sequence d < LogRow.id l).
Proof.
  intros Hc Hk.
  assert (H0 : rowids_fresh (logs d) (sqlite_sequence d) d).
  { split; [exact Hk|]. split; [lia|]. intros l Hl. now left. }
  generalize (logs d) (sqlite_sequence d) H0. clear Hk H0.
  revert s d Hc. induction calls as [|c calls IH]; intros s d Hc old n H0.
  - exists d. split; [exact Hc | exact H0].
  - destruct (@perform_preserves B (rowids_fresh old n) c s d
                (fun r => @rowids_fresh_insert_match old n r)
                (fun set i _ => @rowids_fresh_update_matches old n set i)
                (fun i text => @rowids_fresh_insert_log old n i text)
                (fun i => @rowids_fresh_delete_match old n i) Hc H0)
      as (d1 & Hc1 & H1).
    simpl. exact (IH _ _ Hc1 old n H1).
Qed.

Lemma log_rowids_never_reused_witness :
  exists d',
    connected
      (perform_all
         [ @Wipe Demo.game "B";
           @SetState Demo.game "A" 2 (Some [21]) 500 ]
         Demo.sample_store) d'
    /\ log_key_ok d' = true
    /\ sqlite_sequence Demo.sample_db <= sqlite_sequence d'
    /\ (forall l, In l (logs d') ->
                  In l (logs Demo.sample_db)
                  \/ sqlite_sequence Demo.sample_db < LogRow.id l).
Proof.
  exact (@log_rowids_never_reused Demo.game
           [ @Wipe Demo.game "B";
             @SetState Demo.game "A" 2 (Some [21]) 500 ]
           Demo.sample_store Demo.sample_db eq_refl eq_refl).
Defined.

(** The run the witness above is about: the two log rows of B are wiped,
    and the row then inserted for A gets rowid 3, not 1. *)
Example rowid_after_wipe :
  option_map logs
    (db (perform_all
           [ @Wipe Demo.game "B";
             @SetState Demo.game "A" 2 (Some [21]) 500 ]
           Demo.sample_store))
  = Some [ {| LogRow.id := 3; LogRow.matchId := "A";
              LogRow.logEntry := "21" |} ].
Proof. reflexivity. Qed.

(** ** A new match in the listing                                      *)

Lemma listed_run {B : Boardgame} opts s d :
  connected s d ->
  isGameover_of opts = None ->
  listed opts s = map MatchRow.id (rows_where (where_clause opts) d).
Proof.
  intros Hc Hn. unfold listed. rewrite (listMatches_run opts Hc).
  now rewrite Hn.
Qed.

(** X19. [createMatch] with an id that is not taken returns normally and
    the new match is listed: by [listMatches()], and by [listMatches] with
    a game name that is not empty exactly when that name is the [gameName]
    of the metadata it was created with. *)
Theorem createMatch_listed
    {B : Boardgame} (s : SQLiteStore) (d : Database) (id : string)
    (opts : CreateMatchOpts.t) (now : Z) :
  connected s d ->
  find_match id d = None ->
  exists s',
    createMatch id opts now s = (Returned tt, s')
    /\ In id (listed None s')
    /\ (forall g,
          g <> ""%string ->
          (In id (listed (Some (ListMatchesOpts.mk (Some g) None)) s') <->
           gameName (CreateMatchOpts.metadata opts) = Some g)).
Proof.
  intros Hc Hn. unfold createMatch. rewrite (with_db_connected _ Hc).
  unfold insert_match. simpl. rewrite (find_match_none_existsb _ _ Hn). simpl.
  match goal with
  | |- exists s', (_, {| db := Some ?d1 |}) = _ /\ _ => set (d' := d1)
  end.
  exists {| db := Some d' |}.
  assert (Hc' : connected {| db := Some d' |} d') by reflexivity.
  split; [reflexivity|].
  set (row := {| MatchRow.id := id;
                 MatchRow.gameName :=
                   nullish (gameName (CreateMatchOpts.metadata opts)) ""%string;
                 MatchRow.state :=
                   Some (JSON_stringify (CreateMatchOpts.initialState opts));
                 MatchRow.initialState :=
                   Some (JSON_stringify (CreateMatchOpts.initialState opts));
                 MatchRow.metadata :=
                   Some (JSON_stringify (CreateMatchOpts.metadata opts));
                 MatchRow.createdAt := now;
                 MatchRow.updatedAt := now |}) in *.
  assert (Hrow : In row (matches d')).
  { unfold d'. simpl. apply in_or_app. right. now left. }
  split.
  - rewrite (listed_run None Hc' eq_refl).
    change id with (MatchRow.id row) at 1. apply in_map.
    apply in_rows_where. split; [exact Hrow | reflexivity].
  - intros g Hg.
    rewrite (listed_run (Some (ListMatchesOpts.mk (Some g) None)) Hc' eq_refl).
    split.
    + intros Hi. apply in_map_iff in Hi. destruct Hi as (r' & E & Hq).
      apply in_rows_where in Hq. destruct Hq as [Hin Hw].
      apply where_clause_spec in Hw. destruct Hw as [Hname _].
      specialize (Hname g eq_refl Hg).
      unfold d' in Hin. simpl in Hin. apply in_app_or in Hin.
      destruct Hin as [Hin|[<-|[]]].
      * exfalso. pose proof (find_match_none_forall _ _ Hn r' Hin) as K.
        rewrite (proj2 (id_is_true id r') E) in K. discriminate.
      * simpl in Hname.
        destruct (gameName (CreateMatchOpts.metadata opts)) as [g'|];
          simpl in Hname; congruence.
    + intros Hm. change id with (MatchRow.id row) at 1. apply in_map.
      apply in_rows_where. split; [exact Hrow|].
      apply where_clause_spec. split; [|split]; try discriminate 1.
      simpl. intros g' E _. inversion E; subst g'. now rewrite Hm.
Qed.

Lemma createMatch_listed_witness :
  exists s',
    createMatch (B := Demo.game) "D" Demo.create_opts 900 Demo.sample_store
    = (Returned tt, s')
    /\ In "D"%string (listed (B := Demo.game) None s')
    /\ (forall g,
          g <> ""%string ->
          (In "D"%string
             (listed (B := Demo.game)
                (Some (ListMatchesOpts.mk (Some g) None)) s') <->
           Some "g3"%string = Some g)).
Proof.
  exact (@createMatch_listed Demo.game Demo.sample_store Demo.sample_db "D"
           Demo.create_opts 900 eq_refl eq_refl).
Defined.

(** ** close                                                           *)

(** X20. [close] returns normally and leaves the store as a new store is,
    without a connection: after it every data method throws the
    not-connected error and changes nothing, and a second [close] does
    nothing. *)
Theorem close_disconnects
    {B : Boardgame} (s : SQLiteStore) (c : Call) :
  fst (close s) = Returned tt
  /\ snd (close s) = new_SQLiteStore
  /\ thrown_by c (snd (close s)) = Some NotConnected
  /\ perform c (snd (close s)) = snd (close s)
  /\ close (snd (close s)) = (Returned tt, snd (close s)).
Proof.
  assert (Hs : close s = (Returned tt, new_SQLiteStore)).
  { unfold close. destruct s as [[d|]]; reflexivity. }
  rewrite Hs. simpl fst. simpl snd.
  split; [reflexivity|]. split; [reflexivity|].
  split; [|split; [|reflexivity]]; destruct c; reflexivity.
Qed.

(** ** The first properties at the sample store                        *)

Lemma not_connected_throws_witness :
  perform (@Wipe Demo.game "A") new_SQLiteStore = new_SQLiteStore
  /\ fst (wipe "A" new_SQLiteStore) = Thrown NotConnected.
Proof.
  exact (@not_connected_throws Demo.game (@Wipe Demo.game "A")
           new_SQLiteStore eq_refl).
Defined.

Lemma createMatch_taken_witness :
  createMatch (B := Demo.game) "A" Demo.create_opts 900 Demo.sample_store
  = (Thrown (SqliteError SQLITE_CONSTRAINT_PRIMARYKEY), Demo.sample_store).
Proof.
  exact (@createMatch_taken Demo.game Demo.sample_store Demo.sample_db "A"
           Demo.create_opts 900 Demo.row_A eq_refl eq_refl).
Defined.

Lemma store_keeps_integrity_witness :
  integrity empty_database = true
  /\ exists d',
       connected
         (perform_all
            [ @CreateMatch Demo.game "D" Demo.create_opts 900;
              @SetState Demo.game "D" 1 (Some [31]) 950;
              @Wipe Demo.game "B" ] Demo.sample_store) d'
       /\ integrity d' = true.
Proof.
  destruct (@store_keeps_integrity Demo.game
              [ @CreateMatch Demo.game "D" Demo.create_opts 900;
                @SetState Demo.game "D" 1 (Some [31]) 950;
                @Wipe Demo.game "B" ]) as [H1 H2].
  split; [exact H1|].
  exact (H2 Demo.sample_store Demo.sample_db eq_refl eq_refl).
Defined.

(** ** The listing holds ids of stored matches, each once              *)

Lemma NoDup_map_permutation {A C : Type} (f : A -> C) l l' :
  Permutation l l' -> NoDup (map f l') -> NoDup (map f l).
Proof.
  intros Hp Hn. apply (Permutation_NoDup (l := map f l')); [|exact Hn].
  symmetry. now apply Permutation_map.
Qed.

(** X21. Under the primary key of [matches], the ids [listMatches]
    returns are pairwise distinct, and each of them is the id of a stored
    match, which [fetch] will find. *)
Theorem listMatches_ids_distinct
    {B : Boardgame} (s : SQLiteStore) (d : Database)
    (opts : option ListMatchesOpts.t) (ids : list string) (s' : SQLiteStore) :
  connected s d ->
  primary_key_ok d = true ->
  listMatches opts s = (Returned ids, s') ->
  NoDup ids
  /\ (forall i, In i ids ->
                exists r, find_match i d = Some r /\ In r (matches d)).
Proof.
  intros Hc Hpk Hr.
  destruct (listMatches_returned _ Hc Hr) as [-> _].
  rewrite kept_rows_filter. split.
  - apply NoDup_map_filter.
    apply (NoDup_map_permutation _ (rows_where_perm (where_clause opts) d)).
    apply NoDup_map_filter. now apply distinct_NoDup.
  - intros i Hi. apply in_map_iff in Hi. destruct Hi as (r & E & Hk).
    apply filter_In in Hk. destruct Hk as [Hq _].
    apply in_rows_where in Hq. destruct Hq as [Hin _].
    destruct (find_match i d) as [r'|] eqn:Hf.
    + exists r'. split; [reflexivity|].
      unfold find_match in Hf. apply find_some in Hf. tauto.
    + exfalso. pose proof (find_match_none_forall _ _ Hf r Hin) as K.
      rewrite (proj2 (id_is_true i r) E) in K. discriminate.
Qed.

Lemma listMatches_ids_distinct_witness :
  NoDup ["B"; "C"; "A"]%string
  /\ (forall i, In i ["B"; "C"; "A"]%string ->
                exists r, find_match i Demo.sample_db = Some r
                          /\ In r (matches Demo.sample_db)).
Proof.
  exact (@listMatches_ids_distinct Demo.game Demo.sample_store Demo.sample_db
           None ["B"; "C"; "A"]%string Demo.sample_store
           eq_refl eq_refl eq_refl).
Defined.
